(** * QuantumWalk: the hash-chain step generator, its cache and the sequence matcher

    A shallow embedding of the TypeScript sources

      - [utils/quantum/hasher.ts]             (hashTimestamp, isValidHash)
      - [utils/quantum/durationConverter.ts]  (hashToDuration, formatDuration)
      - [utils/quantum/stepCalculator.ts]     (the step generator)
      - [utils/quantum/cache.ts]              (StepCache)
      - [utils/quantum/stepHelpers.ts]        (getPreviousSteps)
      - [utils/matching/similarityScore.ts]   (the similarity scorer)
      - [utils/matching/sequenceMatcher.ts]   (the sequence matcher)

    Conventions.
      - Timestamps, intervals and indices of the chain are JavaScript numbers
        that only ever hold integers; they are modelled as [Z].  The model is
        exact as long as they stay below 2^53, the range in which JavaScript
        adds integers without rounding.
      - [BigInt] values are [Z]; BigInt division truncates ([Z.quot]).
      - A function that can throw returns a [result]; [Timeout] is not an
        outcome of the program, it marks a model run whose fuel was too small
        for an unbounded [while] loop.
      - [await] is sequencing in the [result] monad.
      - The scorer and the matcher compute with fractional numbers.  They are
        written over the interface [Number] of the arithmetic they use and
        read at its instance [binary64], the IEEE 754 doubles JavaScript
        computes with (Rocq's primitive floats, which evaluate).
      - A call that spreads an array into its arguments, [Math.max(...a)],
        throws a RangeError when the array holds more elements than the
        engine takes arguments in one call.  The language sets no such number;
        it is a parameter of the host, [maxArguments]. *)

From Stdlib Require Import ZArith List String Ascii Bool Lia.
From Stdlib Require Import DecimalString Floats.
From Stdlib.Strings Require Byte.
Import ListNotations.

Set Warnings "-inexact-float".

Local Open Scope Z_scope.

(** ** Outcomes of fallible code *)

Inductive error : Type :=
| CryptoUnavailable      (* hasher: 'Web Crypto API is not available...' *)
| HashFailed             (* hasher: 'Failed to compute hash: ...' *)
| SyntaxError            (* BigInt('0x' + s) on a string that is not hexadecimal *)
| RangeError             (* Date.prototype.toISOString on an invalid time value *)
| TooManyArguments       (* the engine's RangeError on a call with too many arguments *)
| StepLimitExceeded      (* 'Maximum step limit exceeded (1,000,000 steps)' *)
| NoIntervals            (* 'No intervals to match' *)
| SearchRangeTooSmall.   (* 'Search range too small for sequence length. ...' *)

Inductive result (A : Type) : Type :=
| Ok (a : A)
| Throw (e : error)
| Timeout.

Arguments Ok {A} a.
Arguments Throw {A} e.
Arguments Timeout {A}.

Definition bind {A B : Type} (r : result A) (k : A -> result B) : result B :=
  match r with
  | Ok a => k a
  | Throw e => Throw e
  | Timeout => Timeout
  end.

Notation "'let*' x ':=' r 'in' k" := (bind r (fun x => k))
  (at level 10, x name, r at level 100, k at level 200).

(** ** durationConverter.ts *)

(** [7 * 24 * 60 * 60 * 1000] *)
Definition MAX_INTERVAL_MS : Z := 7 * 24 * 60 * 60 * 1000.

(** Largest integer below which every integer is a JavaScript number. *)
Definition MAX_SAFE_INTEGER : Z := 2 ^ 53 - 1.

(** The value of one hexadecimal digit, upper or lower case. *)
Definition hexDigit (c : ascii) : option Z :=
  let n := Z.of_nat (nat_of_ascii c) in
  if (48 <=? n) && (n <=? 57) then Some (n - 48)
  else if (97 <=? n) && (n <=? 102) then Some (n - 87)
  else if (65 <=? n) && (n <=? 70) then Some (n - 55)
  else None.

Fixpoint hexDigits (acc : Z) (s : string) : option Z :=
  match s with
  | EmptyString => Some acc
  | String c s' =>
      match hexDigit c with
      | Some d => hexDigits (16 * acc + d) s'
      | None => None
      end
  end.

(** [BigInt('0x' + s)]: the number written by the hexadecimal digits of [s];
    a SyntaxError when [s] is empty or holds a character that is no
    hexadecimal digit.  (JavaScript also accepts white space after the digits;
    no digest holds any.) *)
Definition BigInt_of_hex (s : string) : result Z :=
  match s with
  | EmptyString => Throw SyntaxError
  | _ => match hexDigits 0 s with
         | Some v => Ok v
         | None => Throw SyntaxError
         end
  end.

(** [Number(b)] for a BigInt [b]: the nearest binary64 value, ties to even.
    Every integer of magnitude at most 2^53 is kept; a larger one keeps its 53
    leading bits.  (Magnitudes of 2^1024 and more, which become Infinity, are
    beyond any product of a 64-bit prefix and a JavaScript integer.) *)
Definition Number_of_BigInt (b : Z) : Z :=
  let a := Z.abs b in
  if a <=? 2 ^ 53 then b
  else
    let e := Z.log2 a - 52 in
    let q := a / 2 ^ e in
    let r := a mod 2 ^ e in
    let half := 2 ^ (e - 1) in
    let q' := if r <? half then q
              else if half <? r then q + 1
              else if Z.even q then q else q + 1 in
    Z.sgn b * (q' * 2 ^ e).

(** [0xFFFFFFFFFFFFFFFF] *)
Definition maxUint64 : Z := 0xFFFFFFFFFFFFFFFF.

(** [hashToDuration(hash, maxInterval)].  [maxInterval] is an integer, so
    [BigInt(maxInterval)] does not throw; [Math.floor] of an integer is that
    integer. *)
Definition hashToDuration (hash : string) (maxInterval : Z) : result Z :=
  let hexSubstring := substring 0 16 hash in
  let* hashValue := BigInt_of_hex hexSubstring in
  let normalized := Number_of_BigInt (Z.quot (hashValue * maxInterval) maxUint64) in
  Ok normalized.

(** ** hasher.ts *)

(** The lower-case hexadecimal digit of a value below 16. *)
Definition hexChar (d : Z) : ascii :=
  ascii_of_nat (Z.to_nat (if d <? 10 then 48 + d else 87 + d)).

(** [b.toString(16).padStart(2, '0')] for an element [b] of a [Uint8Array]. *)
Definition byteToHex (b : Byte.byte) : string :=
  let n := Z.of_N (Byte.to_N b) in
  String (hexChar (n / 16)) (String (hexChar (n mod 16)) EmptyString).

(** [timestamp.toString()] for an integer: its decimal digits.  (From 1e21 on
    JavaScript prints an exponent; no timestamp of the model gets there.) *)
Definition Number_toString (t : Z) : string := NilZero.string_of_int (Z.to_int t).

(** The Web Crypto capability of the host: [None] when [crypto] or
    [crypto.subtle] is missing; otherwise [crypto.subtle.digest('SHA-256', _)]
    on the text whose encoding it is given, [None] when the digest is
    rejected. *)
Definition Crypto : Type := option (string -> option (list Byte.byte)).

Definition hashTimestamp (crypto : Crypto) (timestamp : Z) : result string :=
  match crypto with
  | None => Throw CryptoUnavailable
  | Some digest =>
      let data := Number_toString timestamp in
      match digest data with
      | Some hashArray => Ok (String.concat "" (map byteToHex hashArray))
      | None => Throw HashFailed
      end
  end.

(** ** Date.prototype.toISOString *)

(** [w] decimal digits of [n], with leading zeros. *)
Fixpoint padDigits (w : nat) (n : Z) : string :=
  match w with
  | O => EmptyString
  | S w' => (padDigits w' (n / 10) ++ String (hexChar (n mod 10)) EmptyString)%string
  end.

(** Year, month and day of the day that lies [days] days after 1970-01-01 in
    the proleptic Gregorian calendar. *)
Definition civilFromDays (days : Z) : Z * Z * Z :=
  let z := days + 719468 in
  let era := z / 146097 in
  let doe := z - era * 146097 in
  let yoe := (doe - doe / 1460 + doe / 36524 - doe / 146096) / 365 in
  let doy := doe - (365 * yoe + yoe / 4 - yoe / 100) in
  let mp := (5 * doy + 2) / 153 in
  let d := doy - (153 * mp + 2) / 5 + 1 in
  let m := if mp <? 10 then mp + 3 else mp - 9 in
  let y := yoe + era * 400 + (if m <=? 2 then 1 else 0) in
  (y, m, d).

(** [new Date(t).toISOString()]: a RangeError outside the range of [Date],
    years beyond four digits with a sign and six digits. *)
Definition toISOString (t : Z) : result string :=
  if Z.abs t >? 8640000000000000 then Throw RangeError
  else
    let '(y, m, d) := civilFromDays (t / 86400000) in
    let ms := t mod 86400000 in
    let year :=
      if (0 <=? y) && (y <=? 9999) then padDigits 4 y
      else ((if (y <? 0)%Z then "-" else "+") ++ padDigits 6 (Z.abs y))%string in
    let hours := ms / 3600000 in
    let minutes := ms / 60000 mod 60 in
    let seconds := ms / 1000 mod 60 in
    let millis := ms mod 1000 in
    Ok (year ++ "-" ++ padDigits 2 m ++ "-" ++ padDigits 2 d ++ "T"
        ++ padDigits 2 hours ++ ":" ++ padDigits 2 minutes ++ ":"
        ++ padDigits 2 seconds ++ "." ++ padDigits 3 millis ++ "Z")%string.

(** ** types/quantum.ts *)

Record QuantumStep : Type := mkStep {
  index : Z;
  timestamp : Z;
  interval : Z;
  hash : string;
  isoString : string
}.

Record QuantumConfig : Type := mkConfig {
  maxInterval : Z;
  startTimestamp : Z
}.

(** ** stepCalculator.ts *)

Definition DEFAULT_CONFIG : QuantumConfig :=
  {| maxInterval := MAX_INTERVAL_MS; startTimestamp := 0 |}.

Section Generator.

Variable crypto : Crypto.

Definition getInitialStep : result QuantumStep :=
  let* hash := hashTimestamp crypto 0 in
  let* iso := toISOString 0 in
  Ok {| index := 0; timestamp := 0; interval := 0; hash := hash;
        isoString := iso |}.

Definition calculateNextStep (currentStep : QuantumStep) (config : QuantumConfig)
  : result QuantumStep :=
  let* hash := hashTimestamp crypto (timestamp currentStep) in
  let* interval := hashToDuration hash (maxInterval config) in
  let nextTimestamp := timestamp currentStep + interval in
  let* iso := toISOString nextTimestamp in
  Ok {| index := index currentStep + 1;
        timestamp := nextTimestamp;
        interval := interval;
        hash := hash;
        isoString := iso |}.

End Generator.

Section GeneratorLoops.

Variable crypto : Crypto.

Let nextStep := calculateNextStep crypto.

(** The [for] loop of [calculateStepsForward]: [count] more rounds. *)
Fixpoint stepsForwardLoop (config : QuantumConfig) (count : nat)
    (current : QuantumStep) (steps : list QuantumStep)
  : result (list QuantumStep) :=
  match count with
  | O => Ok steps
  | S count' =>
      let* current' := nextStep current config in
      stepsForwardLoop config count' current' (steps ++ [current'])
  end.

Definition calculateStepsForward (startStep : QuantumStep) (count : nat)
    (config : QuantumConfig) : result (list QuantumStep) :=
  stepsForwardLoop config count startStep [].

(** The [while] loop of [calculateStepsUntil].  The test on [steps.length]
    bounds the number of rounds; [fuel] only makes the recursion structural. *)
Fixpoint stepsUntilLoop (targetTimestamp : Z) (config : QuantumConfig)
    (fuel : nat) (current : QuantumStep) (steps : list QuantumStep)
  : result (list QuantumStep) :=
  if timestamp current <? targetTimestamp then
    match fuel with
    | O => Timeout
    | S fuel' =>
        let* current' := nextStep current config in
        let steps' := steps ++ [current'] in
        if Z.of_nat (List.length steps') >? 1000000 then Throw StepLimitExceeded
        else stepsUntilLoop targetTimestamp config fuel' current' steps'
    end
  else Ok steps.

Definition calculateStepsUntil (startStep : QuantumStep) (targetTimestamp : Z)
    (config : QuantumConfig) : result (list QuantumStep) :=
  stepsUntilLoop targetTimestamp config (Z.to_nat 1000001) startStep [].

(** The [while] loop of [findStepNearTimestamp]; nothing bounds it in the
    source, so the caller of the model supplies [fuel]. *)
Fixpoint nearLoop (targetTimestamp : Z) (config : QuantumConfig)
    (fuel : nat) (current : QuantumStep) : result QuantumStep :=
  if timestamp current <? targetTimestamp then
    match fuel with
    | O => Timeout
    | S fuel' =>
        let* next := nextStep current config in
        if timestamp next >? targetTimestamp then
          let currentDiff := Z.abs (targetTimestamp - timestamp current) in
          let nextDiff := Z.abs (targetTimestamp - timestamp next) in
          Ok (if currentDiff <? nextDiff then current else next)
        else nearLoop targetTimestamp config fuel' next
    end
  else Ok current.

Definition findStepNearTimestamp (fuel : nat) (targetTimestamp : Z)
    (config : QuantumConfig) : result QuantumStep :=
  let* current := getInitialStep crypto in
  nearLoop targetTimestamp config fuel current.

(** The [while] loop of [calculateStepsInRange]. *)
Fixpoint rangeLoop (endTimestamp : Z) (config : QuantumConfig)
    (fuel : nat) (current : QuantumStep) (steps : list QuantumStep)
  : result (list QuantumStep) :=
  if timestamp current <? endTimestamp then
    match fuel with
    | O => Timeout
    | S fuel' =>
        let* current' := nextStep current config in
        rangeLoop endTimestamp config fuel' current'
          (if timestamp current' <=? endTimestamp then steps ++ [current'] else steps)
    end
  else Ok steps.

(** [startTimestamp] and [endTimestamp] are [startDate.getTime()] and
    [endDate.getTime()]. *)
Definition calculateStepsInRange (fuel : nat) (startTimestamp endTimestamp : Z)
    (config : QuantumConfig) : result (list QuantumStep) :=
  let* firstStep := findStepNearTimestamp fuel startTimestamp config in
  rangeLoop endTimestamp config fuel firstStep [firstStep].

End GeneratorLoops.

(** ** cache.ts *)

(** A JavaScript [Map] with number keys: the entries in insertion order.
    [set] on a key that is present replaces the value where it stands. *)
Section JSMap.
Context {V : Type}.

Definition JSMap : Type := list (Z * V).

Fixpoint Map_get (m : JSMap) (k : Z) : option V :=
  match m with
  | [] => None
  | (k', v) :: m' => if k' =? k then Some v else Map_get m' k
  end.

Fixpoint Map_set (m : JSMap) (k : Z) (v : V) : JSMap :=
  match m with
  | [] => [(k, v)]
  | (k', v') :: m' => if k' =? k then (k, v) :: m' else (k', v') :: Map_set m' k v
  end.

Fixpoint Map_delete (m : JSMap) (k : Z) : JSMap :=
  match m with
  | [] => []
  | (k', v') :: m' => if k' =? k then m' else (k', v') :: Map_delete m' k
  end.

(** [m.keys().next().value] *)
Definition Map_firstKey (m : JSMap) : option Z :=
  match m with
  | [] => None
  | (k, _) :: _ => Some k
  end.

Definition Map_size (m : JSMap) : Z := Z.of_nat (List.length m).
End JSMap.

Arguments JSMap V : clear implicits.

Record StepCacheEntry : Type := mkEntry {
  entry_step : QuantumStep;
  entry_timestamp : Z          (* Date.now() when the entry was cached *)
}.

Record StepCache : Type := mkCache {
  cache : JSMap StepCacheEntry;
  maxSize : Z;
  checkpoints : JSMap QuantumStep
}.

(** The constructor; its [checkpointInterval] argument is not used by the class. *)
Definition newStepCache (maxSize checkpointInterval : Z) : StepCache :=
  {| cache := []; maxSize := maxSize; checkpoints := [] |}.

Definition globalStepCache : StepCache := newStepCache 10000 1000.

Definition StepCache_get (c : StepCache) (index : Z) : option QuantumStep :=
  match Map_get (cache c) index with
  | Some entry => Some (entry_step entry)
  | None => None
  end.

(** [set(step)]; [now] is the value of [Date.now()].  [%] is the remainder of
    the truncating division. *)
Definition StepCache_set (c : StepCache) (step : QuantumStep) (now : Z) : StepCache :=
  let cache1 :=
    if Map_size (cache c) >=? maxSize c then
      match Map_firstKey (cache c) with
      | Some firstKey => Map_delete (cache c) firstKey
      | None => cache c
      end
    else cache c in
  let cache2 := Map_set cache1 (index step) {| entry_step := step; entry_timestamp := now |} in
  let checkpoints' :=
    if Z.rem (index step) 1000 =? 0 then Map_set (checkpoints c) (index step) step
    else checkpoints c in
  {| cache := cache2; maxSize := maxSize c; checkpoints := checkpoints' |}.

(** [getNearestCheckpoint(targetIndex)]; [Math.floor] of the quotient is the
    flooring division. *)
Definition getNearestCheckpoint (c : StepCache) (targetIndex : Z) : option QuantumStep :=
  let checkpointIndex := targetIndex / 1000 * 1000 in
  Map_get (checkpoints c) checkpointIndex.

Definition StepCache_clear (c : StepCache) : StepCache :=
  {| cache := []; maxSize := maxSize c; checkpoints := [] |}.

(** The operations a client can apply to a cache, and the states they reach. *)
Inductive cacheOp : Type :=
| OpSet (step : QuantumStep) (now : Z)
| OpClear.

Definition applyOp (c : StepCache) (op : cacheOp) : StepCache :=
  match op with
  | OpSet step now => StepCache_set c step now
  | OpClear => StepCache_clear c
  end.

Definition runOps (c : StepCache) (ops : list cacheOp) : StepCache :=
  fold_left applyOp ops c.

(** ** JavaScript numbers *)

(** The operations on numbers the scorer and the matcher use. *)
Class Number (num : Type) : Type := {
  NaN : num;
  Infinity : num;
  ofZ : Z -> num;                      (* an integer literal, a length, an interval *)
  lit_0_5 : num;                       (* the literal 0.5 *)
  lit_0_3 : num;                       (* the literal 0.3 *)
  lit_0_2 : num;                       (* the literal 0.2 *)
  num_add : num -> num -> num;
  num_sub : num -> num -> num;
  num_mul : num -> num -> num;
  num_div : num -> num -> num;
  num_neg : num -> num;
  Math_abs : num -> num;
  Math_sqrt : num -> num;
  Math_min : num -> num -> num;
  Math_max : num -> num -> num;
  strictEq : num -> num -> bool;       (* a === b *)
  greater : num -> num -> bool         (* a > b *)
}.

Declare Scope num_scope.
Delimit Scope num_scope with num.
Infix "+" := num_add : num_scope.
Infix "-" := num_sub : num_scope.
Infix "*" := num_mul : num_scope.
Infix "/" := num_div : num_scope.

(** *** binary64: the numbers of JavaScript *)

(** The double nearest to an integer. *)
Definition f64_ofZ (z : Z) : float := SF2Prim (binary_normalize prec emax z 0 false).

(** [Math.min] and [Math.max] of two arguments: NaN when either is NaN, and
    -0 counts as smaller than +0. *)
Definition f64_min (a b : float) : float :=
  if PrimFloat.is_nan a || PrimFloat.is_nan b then PrimFloat.nan
  else if PrimFloat.ltb a b then a
  else if PrimFloat.ltb b a then b
  else if PrimFloat.get_sign a then a else b.

Definition f64_max (a b : float) : float :=
  if PrimFloat.is_nan a || PrimFloat.is_nan b then PrimFloat.nan
  else if PrimFloat.ltb a b then b
  else if PrimFloat.ltb b a then a
  else if PrimFloat.get_sign a then b else a.

#[export] Instance binary64 : Number float := {|
  NaN := PrimFloat.nan;
  Infinity := PrimFloat.infinity;
  ofZ := f64_ofZ;
  lit_0_5 := 0.5%float;
  lit_0_3 := 0.3%float;
  lit_0_2 := 0.2%float;
  num_add := PrimFloat.add;
  num_sub := PrimFloat.sub;
  num_mul := PrimFloat.mul;
  num_div := PrimFloat.div;
  num_neg := PrimFloat.opp;
  Math_abs := PrimFloat.abs;
  Math_sqrt := PrimFloat.sqrt;
  Math_min := f64_min;
  Math_max := f64_max;
  strictEq := PrimFloat.eqb;
  greater := fun a b => PrimFloat.ltb b a
|}.

(** ** similarityScore.ts *)

Record MatchStatistics (num : Type) : Type := mkStatistics {
  meanError : num;
  stdDeviation : num;
  correlation : num;
  rmse : num;
  maxError : num;
  minError : num
}.

Arguments mkStatistics {num}.

Section Scorer.
Context {num : Type} {N : Number num}.
Local Open Scope num_scope.

(** [a[i]]: a read past the end is [undefined], which arithmetic turns
    into NaN. *)
Definition item (a : list num) (i : nat) : num := nth i a NaN.

(** [a.slice(from, to)] for [0 <= from]. *)
Definition slice {A : Type} (a : list A) (from to : nat) : list A :=
  firstn (to - from) (skipn from a).

Definition ofNat (n : nat) : num := ofZ (Z.of_nat n).

(** [a.reduce((sum, val) => sum + val, 0)] *)
Definition sum (a : list num) : num := fold_left num_add a (ofZ 0).

Definition pearsonCorrelation (x y : list num) : num :=
  let n := Nat.min (List.length x) (List.length y) in
  if Nat.eqb n 0 then ofZ 0
  else
    let meanX := sum (slice x 0 n) / ofNat n in
    let meanY := sum (slice y 0 n) / ofNat n in
    let '(numerator, sumSqX, sumSqY) :=
      fold_left
        (fun '(numerator, sumSqX, sumSqY) i =>
           let dx := item x i - meanX in
           let dy := item y i - meanY in
           (numerator + dx * dy, sumSqX + dx * dx, sumSqY + dy * dy))
        (seq 0 n) (ofZ 0, ofZ 0, ofZ 0) in
    let denominator := Math_sqrt (sumSqX * sumSqY) in
    if strictEq denominator (ofZ 0) then ofZ 0 else numerator / denominator.

(** The number of arguments the engine takes in one call. *)
Variable maxArguments : nat.

(** [Math.max(...a)] and [Math.min(...a)]: the elements of [a] are spread
    into the arguments of the call, which throws when they are more than the
    engine takes; otherwise the arguments are folded from [-Infinity] and from
    [Infinity]. *)
Definition Math_max_of (a : list num) : result num :=
  if Nat.leb (List.length a) maxArguments
  then Ok (fold_left Math_max a (num_neg Infinity))
  else Throw TooManyArguments.

Definition Math_min_of (a : list num) : result num :=
  if Nat.leb (List.length a) maxArguments
  then Ok (fold_left Math_min a Infinity)
  else Throw TooManyArguments.

(** [Math.pow(e - meanError, 2)] is taken as the product of the difference
    with itself. *)
Definition calculateStatistics (userIntervals quantumIntervals : list num)
  : result (MatchStatistics num) :=
  let n := Nat.min (List.length userIntervals) (List.length quantumIntervals) in
  let errors :=
    map (fun i => Math_abs (item userIntervals i - item quantumIntervals i)) (seq 0 n) in
  let meanError := sum errors / ofNat n in
  let* maxError := Math_max_of errors in
  let* minError := Math_min_of errors in
  let variance :=
    fold_left (fun sum e => sum + (e - meanError) * (e - meanError)) errors (ofZ 0)
    / ofNat n in
  let stdDeviation := Math_sqrt variance in
  let rmse := Math_sqrt (fold_left (fun sum e => sum + e * e) errors (ofZ 0) / ofNat n) in
  let correlation := pearsonCorrelation userIntervals quantumIntervals in
  Ok (mkStatistics meanError stdDeviation correlation rmse maxError minError).

(** [a.reduce((sum, u, i) => f sum u i, init)] *)
Definition reduceIndexed {B : Type} (f : B -> num -> nat -> B) (a : list num) (init : B) : B :=
  fold_left (fun acc iu => f acc (snd iu) (fst iu)) (combine (seq 0 (List.length a)) a) init.

(** The clamp [Math.max(0, Math.min(1, finalScore))]. *)
Definition clamp01 (finalScore : num) : num :=
  Math_max (ofZ 0) (Math_min (ofZ 1) finalScore).

Definition calculateSimilarity (userIntervals quantumIntervals : list num)
    (maxInterval : num) : num :=
  let n := Nat.min (List.length userIntervals) (List.length quantumIntervals) in
  if Nat.eqb n 0 then ofZ 0
  else
    let ratioSum :=
      fold_left
        (fun ratioSum i =>
           let u := item userIntervals i in
           let q := item quantumIntervals i in
           if strictEq u (ofZ 0) && strictEq q (ofZ 0) then ratioSum + ofZ 1
           else ratioSum + Math_min u q / Math_max u q)
        (seq 0 n) (ofZ 0) in
    let ratioScore := ratioSum / ofNat n in
    let meanError :=
      reduceIndexed (fun sum u i => sum + Math_abs (u - item quantumIntervals i))
        userIntervals (ofZ 0)
      / ofNat n in
    let errorScore := Math_max (ofZ 0) (ofZ 1 - meanError / maxInterval) in
    let correlation := pearsonCorrelation userIntervals quantumIntervals in
    let corrScore := (correlation + ofZ 1) / ofZ 2 in
    let finalScore :=
      lit_0_5 * ratioScore + lit_0_3 * errorScore + lit_0_2 * corrScore in
    clamp01 finalScore.

(** The default of the parameter [maxInterval]: [7 * 24 * 60 * 60 * 1000]. *)
Definition defaultMaxInterval : num := ofZ (7 * 24 * 60 * 60 * 1000).

End Scorer.

(** ** types/matching.ts *)

Module SequenceAlignment.
Record t : Type := make {
  offset : nat;
  length : nat;
  alignedSteps : list QuantumStep
}.
End SequenceAlignment.

Record MatchResult (num : Type) : Type := mkMatchResult {
  similarityScore : num;
  alignment : SequenceAlignment.t;
  matchedSteps : list QuantumStep;
  statistics : MatchStatistics num;
  userIntervals : list num;
  quantumIntervals : list num
}.

Arguments mkMatchResult {num}.

Inductive inputType : Type := intervals | timestamps.

(** [searchRange] holds [start.getTime()] and [end.getTime()]. *)
Record UserSequenceInput (num : Type) : Type := mkInput {
  type : inputType;
  values : list num;
  searchRange : option (Z * Z)
}.

Arguments mkInput {num}.
Arguments type {num}.
Arguments values {num}.
Arguments searchRange {num}.

(** ** sequenceMatcher.ts *)

Section Matcher.
Context {num : Type} {N : Number num}.
Local Open Scope num_scope.

(** The loop of [parseUserInput]: [values[i] - values[i - 1]] for
    [i = 1 .. values.length - 1]. *)
Fixpoint differences (values : list num) : list num :=
  match values with
  | previous :: ((current :: _) as rest) => (current - previous) :: differences rest
  | _ => []
  end.

Definition parseUserInput (input : UserSequenceInput num) : list num :=
  match type input with
  | intervals => values input
  | timestamps => differences (values input)
  end.

Definition extractIntervals (steps : list QuantumStep) : list num :=
  map (fun step => ofZ (interval step)) steps.

(** The offsets the sliding window visits:
    [0 <= offset <= quantumIntervals.length - targetLength]. *)
Definition windowOffsets (len targetLength : nat) : list nat :=
  if Nat.leb targetLength len then seq 0 (len - targetLength + 1) else [].

(** One round of the search loop on the pair [(bestScore, bestOffset)]. *)
Definition searchStep (userIntervals quantumIntervals : list num) (targetLength : nat)
    (best : num * nat) (offset : nat) : num * nat :=
  let window := slice quantumIntervals offset (offset + targetLength) in
  let score := calculateSimilarity userIntervals window defaultMaxInterval in
  if greater score (fst best) then (score, offset) else best.

(** [windowSize] is a count of steps when given; [windowSize || ...] takes
    the default for a missing and for a zero [windowSize]. *)
Definition findBestAlignment (userIntervals : list num)
    (quantumSteps : list QuantumStep) (windowSize : option nat)
  : SequenceAlignment.t :=
  let targetLength :=
    match windowSize with
    | Some (S w) => S w
    | _ => List.length userIntervals
    end in
  let quantumIntervals := extractIntervals quantumSteps in
  let best :=
    fold_left (searchStep userIntervals quantumIntervals targetLength)
      (windowOffsets (List.length quantumIntervals) targetLength)
      (ofZ (-1), 0%nat) in
  let bestOffset := snd best in
  let alignedSteps := slice quantumSteps bestOffset (bestOffset + targetLength) in
  {| SequenceAlignment.offset := bestOffset;
     SequenceAlignment.length := targetLength;
     SequenceAlignment.alignedSteps := alignedSteps |}.

Variable crypto : Crypto.

(** The candidate steps [matchSequence] searches: the steps of the given
    range, or the first 10,000 steps after the origin. *)
Definition candidateSteps (fuel : nat) (input : UserSequenceInput num)
  : result (list QuantumStep) :=
  match searchRange input with
  | Some (rangeStart, rangeEnd) =>
      calculateStepsInRange crypto fuel rangeStart rangeEnd DEFAULT_CONFIG
  | None =>
      let* initialStep := getInitialStep crypto in
      calculateStepsForward crypto initialStep (Z.to_nat 10000)
        DEFAULT_CONFIG
  end.

(** The number of arguments the engine takes in one call. *)
Variable maxArguments : nat.

Definition matchSequence (fuel : nat) (input : UserSequenceInput num)
  : result (MatchResult num) :=
  let userIntervals := parseUserInput input in
  if Nat.eqb (List.length userIntervals) 0 then Throw NoIntervals
  else
    let* quantumSteps := candidateSteps fuel input in
    if Nat.ltb (List.length quantumSteps) (List.length userIntervals)
    then Throw SearchRangeTooSmall
    else
      let alignment := findBestAlignment userIntervals quantumSteps None in
      let quantumIntervals := extractIntervals (SequenceAlignment.alignedSteps alignment) in
      let similarityScore :=
        calculateSimilarity userIntervals quantumIntervals defaultMaxInterval in
      let* statistics := calculateStatistics maxArguments userIntervals quantumIntervals in
      Ok (mkMatchResult similarityScore alignment
            (SequenceAlignment.alignedSteps alignment) statistics
            userIntervals quantumIntervals).

End Matcher.

(** ** Vocabulary of the statements *)

(** A digest of at least 16 characters, all of them hexadecimal digits. *)
Fixpoint allHex (s : string) : bool :=
  match s with
  | EmptyString => true
  | String c s' =>
      match hexDigit c with
      | Some _ => allHex s'
      | None => false
      end
  end.

Definition hexDigest (digest : string) : bool :=
  Nat.leb 16 (String.length digest) && allHex digest.

Section Chain.
Variable crypto : Crypto.
Variable config : QuantumConfig.

(** The [n] steps that follow [start] on the chain, in order. *)
Fixpoint successors (n : nat) (start : QuantumStep) : result (list QuantumStep) :=
  match n with
  | O => Ok []
  | S n' =>
      let* next := calculateNextStep crypto start config in
      let* rest := successors n' next in
      Ok (next :: rest)
  end.

(** The [n]-th step after [start]. *)
Fixpoint stepAfter (n : nat) (start : QuantumStep) : result QuantumStep :=
  match n with
  | O => Ok start
  | S n' =>
      let* next := calculateNextStep crypto start config in
      stepAfter n' next
  end.

(** Step [n] of the chain that starts at the origin. *)
Definition chainStep (n : nat) : result QuantumStep :=
  let* origin := getInitialStep crypto in
  stepAfter n origin.
End Chain.

(** Every step of a list lies before the target. *)
Definition allBefore (targetTimestamp : Z) (steps : list QuantumStep) : Prop :=
  Forall (fun s => timestamp s < targetTimestamp) steps.

(** The errors of the host: of the hasher, of [BigInt] and of [Date]. *)
Definition hostError (e : error) : Prop :=
  e = CryptoUnavailable \/ e = HashFailed \/ e = SyntaxError \/ e = RangeError.

(** The validation errors of [matchSequence]. *)
Definition validationError (e : error) : Prop :=
  e = NoIntervals \/ e = SearchRangeTooSmall.

(** Hashing succeeds: Web Crypto is there and digests every text into the 32
    bytes of a SHA-256 digest. *)
Definition hashingSucceeds (crypto : Crypto) : Prop :=
  exists digest,
    crypto = Some digest /\
    forall data, exists bytes, digest data = Some bytes /\ List.length bytes = 32%nat.

(** ** A host for the examples: the first steps of the deployed chain

    SHA-256 of the decimal form of the first six timestamps of the chain with
    the default configuration, written in hexadecimal.  On any other text the
    digest of the examples is rejected. *)
Definition sha256Table : list (string * string) :=
  [("0", "5feceb66ffc86f38d952786c6d696c79c2dbc239dd4e91b46729d73a27fb57e9");
   ("226623915", "9d7bfd82cb1d7194737fe8fd5700dd9bf5c8303e53ef0eb95b4e87268e96187b");
   ("598680661", "796d385788d998563b16c2de9abcf69c61014ab45e0a2af0b4359567a54b25bb");
   ("885551100", "030440dbefe9aee320f5439880a2e9c9d234fb2feb325ed36526efbe49a83097");
   ("892677852", "de84512f08ef398dd9051b13f22153c86be6eda9c25140f98fb9ab2a49e78a3f");
   ("1418373942", "8552c21311c236051d39f88a29b0cda392b26fbcfd0e42102fa9b0e1362bc2cf")
  ]%string.

(** The bytes a hexadecimal text writes, two digits to a byte. *)
Fixpoint bytesOfHex (s : string) : list Byte.byte :=
  match s with
  | String hi (String lo rest) =>
      match hexDigit hi, hexDigit lo with
      | Some h, Some l =>
          match Byte.of_N (Z.to_N (16 * h + l)) with
          | Some b => b :: bytesOfHex rest
          | None => []
          end
      | _, _ => []
      end
  | _ => []
  end.

Fixpoint lookupDigest (table : list (string * string)) (data : string)
  : option (list Byte.byte) :=
  match table with
  | [] => None
  | (text, digest) :: table' =>
      if String.eqb text data then Some (bytesOfHex digest) else lookupDigest table' data
  end.

Definition deployedCrypto : Crypto := Some (lookupDigest sha256Table).

Definition origin : QuantumStep :=
  {| index := 0; timestamp := 0; interval := 0;
     hash := "5feceb66ffc86f38d952786c6d696c79c2dbc239dd4e91b46729d73a27fb57e9";
     isoString := "1970-01-01T00:00:00.000Z" |}.

Definition step1 : QuantumStep :=
  {| index := 1; timestamp := 226623915; interval := 226623915;
     hash := "5feceb66ffc86f38d952786c6d696c79c2dbc239dd4e91b46729d73a27fb57e9";
     isoString := "1970-01-03T14:57:03.915Z" |}.

Definition step2 : QuantumStep :=
  {| index := 2; timestamp := 598680661; interval := 372056746;
     hash := "9d7bfd82cb1d7194737fe8fd5700dd9bf5c8303e53ef0eb95b4e87268e96187b";
     isoString := "1970-01-07T22:18:00.661Z" |}.

Definition step3 : QuantumStep :=
  {| index := 3; timestamp := 885551100; interval := 286870439;
     hash := "796d385788d998563b16c2de9abcf69c61014ab45e0a2af0b4359567a54b25bb";
     isoString := "1970-01-11T05:59:11.100Z" |}.

(** A host that digests every text into the 32 bytes of the first digest of
    the chain. *)
Definition constantCrypto : Crypto :=
  Some (fun _ => Some (bytesOfHex (hash origin))).

(** The digest whose leading 64 bits are all ones. *)
Definition allOnesDigest : string :=
  "ffffffffffffffff0000000000000000000000000000000000000000000000ff".

(** What a caller can observe of a [calculateNextStep] result apart from the
    index: the interval, the hash and the timestamp of the new step, or the
    failure. *)
Definition chainFields (r : result QuantumStep) : result (Z * string * Z) :=
  let* s := r in Ok (interval s, hash s, timestamp s).

(** *** The order of binary64 numbers

    A number that is not NaN is placed in the lexicographic order of triples
    of integers: the class (negative infinity, negative, zero, positive,
    positive infinity), then the exponent, then the mantissa, the last two
    negated for a negative number.  The comparisons of the IEEE specification
    are the comparisons of these keys. *)
Definition SFkey (x : spec_float) : option (Z * Z * Z) :=
  match x with
  | S754_zero _ => Some (0, 0, 0)
  | S754_infinity s => Some (if s then -2 else 2, 0, 0)
  | S754_nan => None
  | S754_finite s m e => Some (if s then (-1, - e, Zneg m) else (1, e, Zpos m))
  end.

Definition keyOf (a : float) : option (Z * Z * Z) := SFkey (Prim2SF a).

Definition lexcompare (a b : Z * Z * Z) : comparison :=
  let '(c1, e1, m1) := a in
  let '(c2, e2, m2) := b in
  match c1 ?= c2 with
  | Eq => match e1 ?= e2 with Eq => m1 ?= m2 | c => c end
  | c => c
  end.

Definition lexlt (a b : Z * Z * Z) : Prop :=
  let '(c1, e1, m1) := a in
  let '(c2, e2, m2) := b in
  c1 < c2 \/ (c1 = c2 /\ (e1 < e2 \/ (e1 = e2 /\ m1 < m2))).

(** The inputs of the examples of the matcher. *)
Definition repeatedInterval : list QuantumStep := [step1; step2; step1].

Definition exampleInput : UserSequenceInput float :=
  mkInput intervals [226623915%float; 372056746%float] (Some (0, 600000000)).

(** ** More of the sources *)

(** *** hasher.ts: isValidHash *)

(** [/^[0-9a-f]{64}$/i.test(hash)] *)
Definition isValidHash (hash : string) : bool :=
  Nat.eqb (String.length hash) 64 && allHex hash.

(** *** durationConverter.ts: formatDuration *)

(** [formatDuration(durationMs)] for an integer number of milliseconds, a
    safe integer.  [%] is the remainder of the truncating division,
    [Math.floor] of a quotient the flooring division. *)
Definition formatDuration (durationMs : Z) : string :=
  let days := durationMs / (24 * 60 * 60 * 1000) in
  let hours := Z.rem durationMs (24 * 60 * 60 * 1000) / (60 * 60 * 1000) in
  let minutes := Z.rem durationMs (60 * 60 * 1000) / (60 * 1000) in
  let seconds := Z.rem durationMs (60 * 1000) / 1000 in
  let parts0 : list string := [] in
  let parts1 := if days >? 0 then parts0 ++ [(Number_toString days ++ "d")%string] else parts0 in
  let parts2 := if hours >? 0 then parts1 ++ [(Number_toString hours ++ "h")%string] else parts1 in
  let parts3 :=
    if minutes >? 0 then parts2 ++ [(Number_toString minutes ++ "m")%string] else parts2 in
  let parts4 :=
    if (seconds >? 0) || Nat.eqb (List.length parts3) 0
    then parts3 ++ [(Number_toString seconds ++ "s")%string] else parts3 in
  String.concat " " parts4.

(** *** stepCalculator.ts: getCurrentStep, getNextStep *)

Section Now.
Variable crypto : Crypto.

(** [now] is the value of [Date.now()]. *)
Definition getCurrentStep (fuel : nat) (now : Z) (config : QuantumConfig)
  : result QuantumStep :=
  findStepNearTimestamp crypto fuel now config.

(** The [while] loop of [getNextStep]; nothing bounds it in the source. *)
Fixpoint nextLoop (now : Z) (config : QuantumConfig) (fuel : nat)
    (current : QuantumStep) : result QuantumStep :=
  if timestamp current <=? now then
    match fuel with
    | O => Timeout
    | S fuel' =>
        let* current' := calculateNextStep crypto current config in
        nextLoop now config fuel' current'
    end
  else Ok current.

Definition getNextStep (fuel : nat) (now : Z) (config : QuantumConfig)
  : result QuantumStep :=
  let* current := getInitialStep crypto in
  nextLoop now config fuel current.

End Now.

(** *** stepHelpers.ts: getPreviousSteps, getCurrentPreviousSteps *)

Section Helpers.
Variable crypto : Crypto.

(** The [for] loop of [getPreviousSteps], [rounds] rounds from the counter
    [i] on; [calculateNextStep] is called with its default configuration. *)
Fixpoint previousLoop (startIndex : Z) (rounds : nat) (i : Z)
    (current : QuantumStep) (steps : list QuantumStep)
  : result (list QuantumStep) :=
  match rounds with
  | O => Ok steps
  | S rounds' =>
      let* current' := calculateNextStep crypto current DEFAULT_CONFIG in
      previousLoop startIndex rounds' (i + 1) current'
        (if i >=? startIndex then steps ++ [current'] else steps)
  end.

(** [count] is an integer; the loop runs for [i = 0 .. targetStep.index - 1]. *)
Definition getPreviousSteps (targetStep : QuantumStep) (count : Z)
  : result (list QuantumStep) :=
  if index targetStep =? 0 then Ok []
  else
    let startIndex := Z.max 0 (index targetStep - count) in
    let* current := getInitialStep crypto in
    let* steps :=
      previousLoop startIndex (Z.to_nat (index targetStep)) 0 current [] in
    Ok (rev steps).

Definition getCurrentPreviousSteps (fuel : nat) (now : Z) (count : Z)
  : result (list QuantumStep) :=
  let* current := getCurrentStep crypto fuel now DEFAULT_CONFIG in
  getPreviousSteps current count.

End Helpers.

(** *** cache.ts: getByTimestamp, getStats *)

(** The loop of [getByTimestamp] over [cache.values()], in insertion order. *)
Fixpoint findByTimestamp (entries : JSMap StepCacheEntry) (t : Z) : option QuantumStep :=
  match entries with
  | [] => None
  | (_, entry) :: entries' =>
      if timestamp (entry_step entry) =? t then Some (entry_step entry)
      else findByTimestamp entries' t
  end.

Definition StepCache_getByTimestamp (c : StepCache) (t : Z) : option QuantumStep :=
  findByTimestamp (cache c) t.

Record CacheStats : Type := mkStats {
  stats_size : Z;
  stats_maxSize : Z;
  stats_checkpointCount : Z
}.

Definition getStats (c : StepCache) : CacheStats :=
  {| stats_size := Map_size (cache c);
     stats_maxSize := maxSize c;
     stats_checkpointCount := Map_size (checkpoints c) |}.

(** *** similarityScore.ts: getMatchQuality *)

Record MatchQuality : Type := mkQuality {
  rating : string;
  description : string;
  color : string
}.

(** [score >= t] is [t <= score] in binary64, false when [score] is NaN. *)
Definition getMatchQuality (score : float) : MatchQuality :=
  if PrimFloat.leb 0.95 score then
    {| rating := "Exceptional"; description := "Near-perfect match";
       color := "text-green-400" |}
  else if PrimFloat.leb 0.85 score then
    {| rating := "Excellent"; description := "Very strong match";
       color := "text-cosmic-purple" |}
  else if PrimFloat.leb 0.7 score then
    {| rating := "Good"; description := "Strong correlation";
       color := "text-cosmic-blue" |}
  else if PrimFloat.leb 0.5 score then
    {| rating := "Moderate"; description := "Some similarity";
       color := "text-yellow-400" |}
  else if PrimFloat.leb 0.3 score then
    {| rating := "Weak"; description := "Low correlation";
       color := "text-orange-400" |}
  else
    {| rating := "Poor"; description := "No significant match";
       color := "text-red-400" |}.

(** ** Vocabulary of the further statements *)

Section Linked.
Variable crypto : Crypto.
Variable config : QuantumConfig.

(** [steps] are successive steps of the chain after [start]: each is the next
    step of the one before it. *)
Fixpoint chained (start : QuantumStep) (steps : list QuantumStep) : Prop :=
  match steps with
  | [] => True
  | s :: rest => calculateNextStep crypto start config = Ok s /\ chained s rest
  end.
End Linked.

(** A cache reached from a new one of capacity [capacity]. *)
Definition cacheAfter (capacity : Z) (ops : list cacheOp) : StepCache :=
  runOps (newStepCache capacity 1000) ops.

(** The entries of a cache are well keyed when their keys are distinct and
    every entry is stored under the index of its step. *)
Definition wellKeyed (c : StepCache) : Prop :=
  NoDup (map fst (cache c)) /\
  forall k e, In (k, e) (cache c) -> index (entry_step e) = k.

(** The entries [set] keeps before it writes: all but the oldest one when the
    cache is full. *)
Definition evicted (c : StepCache) : JSMap StepCacheEntry :=
  if Map_size (cache c) >=? maxSize c then
    match Map_firstKey (cache c) with
    | Some firstKey => Map_delete (cache c) firstKey
    | None => cache c
    end
  else cache c.

(** The rank of a rating, from Poor (0) to Exceptional (5). *)
Definition qualityRank (q : MatchQuality) : Z :=
  if String.eqb (rating q) "Exceptional" then 5
  else if String.eqb (rating q) "Excellent" then 4
  else if String.eqb (rating q) "Good" then 3
  else if String.eqb (rating q) "Moderate" then 2
  else if String.eqb (rating q) "Weak" then 1
  else 0.

(** The configuration of the deployed chain with [maxInterval] set to 1 ms. *)
Definition oneMillisecondConfig : QuantumConfig :=
  {| maxInterval := 1; startTimestamp := 0 |}.

(** * Properties *)

(** ** The duration converter *)

Lemma hexDigit_range (c : ascii) (d : Z) : hexDigit c = Some d -> 0 <= d <= 15.
Proof.
  unfold hexDigit.
  repeat match goal with
         | |- context [if ?b then _ else _] => destruct b eqn:?
         end; intros [= <-]; try discriminate;
    repeat match goal with
           | H : (_ && _)%bool = true |- _ => apply andb_prop in H; destruct H
           | H : (_ <=? _) = true |- _ => apply Z.leb_le in H
           end; lia.
Qed.

Lemma hexDigits_bounds (s : string) :
  forall acc v, 0 <= acc -> hexDigits acc s = Some v ->
    acc * 16 ^ Z.of_nat (String.length s) <= v
    < (acc + 1) * 16 ^ Z.of_nat (String.length s).
Proof.
  induction s as [|c s IH]; intros acc v Hacc H.
  - cbn in *. injection H as <-. lia.
  - cbn [hexDigits] in H. destruct (hexDigit c) as [d|] eqn:Hd; [|discriminate].
    apply hexDigit_range in Hd.
    apply IH in H; [|lia].
    cbn [String.length]. rewrite Nat2Z.inj_succ, Z.pow_succ_r by lia.
    assert (0 < 16 ^ Z.of_nat (String.length s)) by (apply Z.pow_pos_nonneg; lia).
    nia.
Qed.

Lemma allHex_hexDigits (s : string) :
  forall acc, allHex s = true -> exists v, hexDigits acc s = Some v.
Proof.
  induction s as [|c s IH]; intros acc H; cbn in *.
  - eauto.
  - destruct (hexDigit c); [apply IH; exact H | discriminate].
Qed.

Lemma allHex_substring (n : nat) :
  forall s, allHex s = true -> allHex (substring 0 n s) = true.
Proof.
  induction n as [|n IH]; intros [|c s] H; cbn in *; try reflexivity.
  destruct (hexDigit c); [apply IH; exact H | discriminate].
Qed.

Lemma length_substring (n : nat) :
  forall s, String.length (substring 0 n s) = Nat.min n (String.length s).
Proof.
  induction n as [|n IH]; intros [|c s]; cbn; try reflexivity.
  now rewrite IH.
Qed.

(** The leading 16 characters of a digest are read as a 64-bit unsigned integer. *)
Lemma BigInt_of_hex_prefix (digest : string) :
  hexDigest digest = true ->
  exists h, BigInt_of_hex (substring 0 16 digest) = Ok h /\ 0 <= h <= maxUint64.
Proof.
  unfold hexDigest. intros H. apply andb_prop in H. destruct H as [Hlen Hhex].
  apply Nat.leb_le in Hlen.
  pose proof (length_substring 16 digest) as Hl.
  rewrite Nat.min_l in Hl by exact Hlen.
  destruct (allHex_hexDigits (substring 0 16 digest) 0
              (allHex_substring 16 digest Hhex)) as [v Hv].
  exists v. split.
  - unfold BigInt_of_hex. rewrite Hv.
    destruct (substring 0 16 digest); [discriminate Hl | reflexivity].
  - apply hexDigits_bounds in Hv; [|lia]. rewrite Hl in Hv.
    change (16 ^ Z.of_nat 16) with (maxUint64 + 1) in Hv. lia.
Qed.

Lemma Number_of_BigInt_safe (b : Z) :
  Z.abs b <= MAX_SAFE_INTEGER -> Number_of_BigInt b = b.
Proof.
  unfold Number_of_BigInt, MAX_SAFE_INTEGER. intros H.
  destruct (Z.leb_spec (Z.abs b) (2 ^ 53)); [reflexivity | lia].
Qed.

(** What the code computes.  For a digest of at least 16 hexadecimal
    characters and a positive integer [M] that JavaScript holds exactly
    ([M <= 2^53 - 1]), [hashToDuration digest M] is
    [floor (h * M / (2^64 - 1))], where [h] is the unsigned value of the
    leading 16 characters.  The result is not negative and never exceeds [M];
    it is below [M] whenever [h] is not [2^64 - 1]. *)
Lemma hashToDuration_scaled (digest : string) (M : Z) :
  hexDigest digest = true ->
  0 < M <= MAX_SAFE_INTEGER ->
  exists h,
    BigInt_of_hex (substring 0 16 digest) = Ok h /\
    0 <= h <= 2 ^ 64 - 1 /\
    hashToDuration digest M = Ok (h * M / (2 ^ 64 - 1)) /\
    0 <= h * M / (2 ^ 64 - 1) <= M /\
    (h < 2 ^ 64 - 1 -> h * M / (2 ^ 64 - 1) < M).
Proof.
  intros Hd HM.
  destruct (BigInt_of_hex_prefix digest Hd) as (h & Hparse & Hh).
  change (2 ^ 64 - 1) with maxUint64.
  assert (Hpos : 0 < maxUint64) by reflexivity.
  assert (Hlo : 0 <= h * M / maxUint64) by (apply Z.div_pos; nia).
  assert (Hhi : h * M / maxUint64 <= M)
    by (apply Z.div_le_upper_bound; [exact Hpos | nia]).
  exists h. repeat split; try lia.
  - exact Hparse.
  - unfold hashToDuration. rewrite Hparse. cbn [bind].
    rewrite Z.quot_div_nonneg by nia.
    rewrite Number_of_BigInt_safe; [reflexivity | lia].
  - intros Hlt. apply Z.div_lt_upper_bound; [exact Hpos | nia].
Qed.

Lemma hashToDuration_scaled_witness :
  exists h,
    BigInt_of_hex (substring 0 16 (hash step1)) = Ok h /\
    0 <= h <= 2 ^ 64 - 1 /\
    hashToDuration (hash step1) MAX_INTERVAL_MS = Ok (h * MAX_INTERVAL_MS / (2 ^ 64 - 1)) /\
    0 <= h * MAX_INTERVAL_MS / (2 ^ 64 - 1) <= MAX_INTERVAL_MS /\
    (h < 2 ^ 64 - 1 -> h * MAX_INTERVAL_MS / (2 ^ 64 - 1) < MAX_INTERVAL_MS).
Proof.
  apply (hashToDuration_scaled (hash step1) MAX_INTERVAL_MS).
  - vm_compute. reflexivity.
  - vm_compute. split; [reflexivity | discriminate].
Defined.

(** On a digest whose leading 64 bits are all ones the quotient is
    [maxInterval] itself. *)
Lemma hashToDuration_all_ones (M : Z) :
  0 < M <= MAX_SAFE_INTEGER -> hashToDuration allOnesDigest M = Ok M.
Proof.
  intros HM. unfold hashToDuration.
  change (BigInt_of_hex (substring 0 16 allOnesDigest)) with (Ok maxUint64).
  cbn [bind]. rewrite Z.mul_comm, Z.quot_mul by discriminate.
  rewrite Number_of_BigInt_safe; [reflexivity | lia].
Qed.

(** C1.  The duration is the scaled prefix, as specified, but it is not always
    in the half-open range the specification, the documentation of
    [hashToDuration] ("Uniform across [0, MAX_INTERVAL_MS)") and its own
    comment ("Normalize to [0, maxInterval)") promise: the prefix is divided
    by [2^64 - 1], not by [2^64], so on a digest whose leading 64 bits are all
    ones the duration is [maxInterval] itself, for every [maxInterval] of the
    safe integers and for the default of seven days. *)
Theorem hashToDuration_reaches_maxInterval :
  hexDigest allOnesDigest = true /\
  0 < MAX_INTERVAL_MS /\
  hashToDuration allOnesDigest MAX_INTERVAL_MS = Ok MAX_INTERVAL_MS /\
  ~ (0 <= MAX_INTERVAL_MS < MAX_INTERVAL_MS) /\
  (forall M, 0 < M <= MAX_SAFE_INTEGER ->
     hashToDuration allOnesDigest M = Ok M /\ ~ (0 <= M < M)).
Proof.
  split; [reflexivity|]. split; [reflexivity|].
  split; [vm_compute; reflexivity|]. split; [lia|].
  intros M HM. split; [now apply hashToDuration_all_ones | lia].
Qed.

(** Beyond the safe integers [Number] rounds the quotient: for such a
    [maxInterval] the duration need not be the floor of the scaled prefix. *)
Lemma hashToDuration_rounds_large_maxInterval :
  hashToDuration "fffffffffffffffe" (2 ^ 53 + 2) = Ok (2 ^ 53) /\
  (0xfffffffffffffffe * (2 ^ 53 + 2)) / (2 ^ 64 - 1) = 2 ^ 53 + 1.
Proof. split; vm_compute; reflexivity. Qed.

(** ** The step generator *)

Section GeneratorProperties.
Variable crypto : Crypto.

(** C2.  The next step depends on the predecessor's timestamp alone: two
    steps with the same timestamp, whatever their other fields, have next
    steps with the same interval, hash and timestamp (and the computation
    fails for the one exactly when it fails for the other, the same way). *)
Theorem calculateNextStep_markov (s1 s2 : QuantumStep) (config : QuantumConfig) :
  timestamp s1 = timestamp s2 ->
  chainFields (calculateNextStep crypto s1 config)
  = chainFields (calculateNextStep crypto s2 config).
Proof.
  intros H. unfold calculateNextStep. rewrite H.
  destruct (hashTimestamp crypto (timestamp s2)) as [h| |]; cbn [bind]; try reflexivity.
  destruct (hashToDuration h (maxInterval config)) as [d| |]; cbn [bind]; try reflexivity.
  destruct (toISOString (timestamp s2 + d)); reflexivity.
Qed.

End GeneratorProperties.

Lemma calculateNextStep_markov_witness :
  chainFields (calculateNextStep deployedCrypto step1 DEFAULT_CONFIG)
  = chainFields (calculateNextStep deployedCrypto
                   {| index := 77; timestamp := 226623915; interval := 5;
                      hash := "00"; isoString := "1970-01-01T00:00:00.000Z" |}
                   DEFAULT_CONFIG)
  /\ chainFields (calculateNextStep deployedCrypto step1 DEFAULT_CONFIG)
     = Ok (372056746, hash step2, 598680661).
Proof.
  split.
  - apply (calculateNextStep_markov deployedCrypto). reflexivity.
  - vm_compute. reflexivity.
Defined.

Section NearestStep.
Variable crypto : Crypto.
Variable config : QuantumConfig.

Let next := fun s => calculateNextStep crypto s config.
Let after := stepAfter crypto config.

Lemma stepAfter_S_right (n : nat) :
  forall start, after (S n) start = (let* s := after n start in next s).
Proof.
  induction n as [|n IH]; intros start.
  - change (after 1 start) with (let* s := next start in Ok s).
    change (after 0 start) with (Ok start). cbn [bind].
    destruct (next start); reflexivity.
  - change (after (S (S n)) start) with (let* s := next start in after (S n) s).
    change (after (S n) start) with (let* s := next start in after n s).
    destruct (next start) as [s| |]; cbn [bind]; [apply IH | reflexivity | reflexivity].
Qed.

Lemma nearLoop_reached (targetTimestamp : Z) (fuel : nat) (current : QuantumStep) :
  targetTimestamp <= timestamp current ->
  nearLoop crypto targetTimestamp config fuel current = Ok current.
Proof.
  intros H. destruct fuel; cbn;
    destruct (Z.ltb_spec (timestamp current) targetTimestamp); (lia || reflexivity).
Qed.

(** The loop of [findStepNearTimestamp], started [j] steps before the last
    step that lies before the target. *)
Lemma nearLoop_spec (targetTimestamp : Z) (j : nat) :
  forall (fuel : nat) (current sBefore sAfter : QuantumStep),
    (forall i, (i <= j)%nat ->
       exists s, after i current = Ok s /\ timestamp s < targetTimestamp) ->
    after j current = Ok sBefore ->
    next sBefore = Ok sAfter ->
    targetTimestamp <= timestamp sAfter ->
    (j < fuel)%nat ->
    nearLoop crypto targetTimestamp config fuel current
    = Ok (if Z.abs (targetTimestamp - timestamp sBefore)
             <? Z.abs (targetTimestamp - timestamp sAfter)
          then sBefore else sAfter).
Proof.
  induction j as [|j IH]; intros fuel current sBefore sAfter Hbelow Hb Ha Hge Hfuel.
  - injection Hb as <-.
    destruct (Hbelow 0%nat (Nat.le_refl _)) as (s & [= <-] & Hlt).
    destruct fuel as [|fuel]; [lia|].
    cbn [nearLoop]. fold (next current). rewrite Ha. cbn [bind].
    destruct (Z.ltb_spec (timestamp current) targetTimestamp); [|lia].
    destruct (Z.gtb_spec (timestamp sAfter) targetTimestamp) as [Hgt|Hle].
    + reflexivity.
    + rewrite nearLoop_reached by lia.
      replace (timestamp sAfter) with targetTimestamp by lia.
      rewrite Z.sub_diag.
      destruct (Z.ltb_spec (Z.abs (targetTimestamp - timestamp current)) (Z.abs 0));
        [lia | reflexivity].
  - destruct (Hbelow 0%nat (Nat.le_0_l _)) as (s & [= <-] & Hlt).
    destruct (Hbelow 1%nat ltac:(lia)) as (s1 & Hs1 & Hlt1).
    change (after 1 current) with (let* s := next current in Ok s) in Hs1.
    change (after (S j) current) with (let* s := next current in after j s) in Hb.
    destruct (next current) as [n| |] eqn:Hn; cbn [bind] in Hs1, Hb; try discriminate.
    injection Hs1 as <-.
    destruct fuel as [|fuel]; [lia|].
    cbn [nearLoop]. fold (next current). rewrite Hn. cbn [bind].
    destruct (Z.ltb_spec (timestamp current) targetTimestamp); [|lia].
    destruct (Z.gtb_spec (timestamp n) targetTimestamp); [lia|].
    apply IH; try assumption; try lia.
    intros i Hi. destruct (Hbelow (S i) ltac:(lia)) as (s & Hs & Hslt).
    change (after (S i) current) with (let* s := next current in after i s) in Hs.
    rewrite Hn in Hs. cbn [bind] in Hs. eauto.
Qed.

(** C4, as amended.  For a target after the origin, [findStepNearTimestamp]
    walks the chain forward and returns whichever of the two steps around the
    target (the last step before it and the first step at or past it) has the
    smaller absolute distance to the target; when both are equally far it
    returns the later one.  [j] is the index of the last step before the
    target; the walk needs more than [j] rounds of fuel. *)
Theorem findStepNearTimestamp_nearest (targetTimestamp : Z) (j fuel : nat)
    (sBefore sAfter : QuantumStep) :
  0 < targetTimestamp ->
  (forall i, (i <= j)%nat ->
     exists s, chainStep crypto config i = Ok s
               /\ timestamp s < targetTimestamp) ->
  chainStep crypto config j = Ok sBefore ->
  chainStep crypto config (S j) = Ok sAfter ->
  targetTimestamp <= timestamp sAfter ->
  (j < fuel)%nat ->
  findStepNearTimestamp crypto fuel targetTimestamp config
  = Ok (if Z.abs (targetTimestamp - timestamp sBefore)
           <? Z.abs (targetTimestamp - timestamp sAfter)
        then sBefore else sAfter).
Proof.
  intros _ Hbelow Hb Ha Hge Hfuel.
  unfold findStepNearTimestamp. unfold chainStep in *.
  destruct (getInitialStep crypto) as [o| |]; cbn [bind] in *; try discriminate.
  fold after in Hbelow, Hb, Ha.
  rewrite stepAfter_S_right, Hb in Ha. cbn [bind] in Ha.
  now apply (nearLoop_spec targetTimestamp j fuel o sBefore sAfter).
Qed.

End NearestStep.

Lemma findStepNearTimestamp_nearest_witness :
  findStepNearTimestamp deployedCrypto 5 500000000 DEFAULT_CONFIG = Ok step2.
Proof.
  apply (findStepNearTimestamp_nearest deployedCrypto DEFAULT_CONFIG
           500000000 1 5 step1 step2).
  - reflexivity.
  - intros [|[|i]] Hi; [exists origin | exists step1 | lia];
      (split; [vm_compute; reflexivity | reflexivity]).
  - vm_compute. reflexivity.
  - vm_compute. reflexivity.
  - vm_compute. discriminate.
  - lia.
Defined.

(** C4, as stated, fails on the deployed chain: the target 412652288 is
    equally far (186028373 ms) from step 1 and from step 2, and the later of
    the two is returned. *)
Lemma findStepNearTimestamp_tie_goes_later :
  chainStep deployedCrypto DEFAULT_CONFIG 1 = Ok step1 /\
  chainStep deployedCrypto DEFAULT_CONFIG 2 = Ok step2 /\
  timestamp step1 < 412652288 < timestamp step2 /\
  Z.abs (412652288 - timestamp step1) = Z.abs (412652288 - timestamp step2) /\
  findStepNearTimestamp deployedCrypto 5 412652288 DEFAULT_CONFIG = Ok step2 /\
  step2 <> step1.
Proof.
  repeat split; try (vm_compute; reflexivity). discriminate.
Qed.

Section StepsUntil.
Variable crypto : Crypto.
Variable config : QuantumConfig.
Variable targetTimestamp : Z.

Let next := fun s => calculateNextStep crypto s config.
Let loop := stepsUntilLoop crypto targetTimestamp config.
Let succs := successors crypto config.

(** A step computation ends, and when it throws the error is one of the
    hasher, of [BigInt] or of [Date]. *)
Lemma calculateNextStep_outcome (s : QuantumStep) :
  next s <> Timeout /\ next s <> Throw StepLimitExceeded.
Proof.
  unfold next, calculateNextStep, hashTimestamp, hashToDuration, BigInt_of_hex, toISOString.
  destruct crypto as [digest|]; cbn [bind]; [|split; discriminate].
  destruct (digest _); cbn [bind]; [|split; discriminate].
  destruct (substring 0 16 _); cbn [bind]; [split; discriminate|].
  destruct (hexDigits 0 _); cbn [bind]; [|split; discriminate].
  destruct (Z.abs _ >? _); cbn [bind]; [split; discriminate|].
  destruct (civilFromDays _) as [[y m] d]. cbn [bind]. split; discriminate.
Qed.

Lemma successors_S_inv (n : nat) (current : QuantumStep) (l : list QuantumStep) :
  succs (S n) current = Ok l ->
  exists x l', l = x :: l' /\ next current = Ok x /\ succs n x = Ok l'.
Proof.
  change (succs (S n) current)
    with (let* x := next current in let* rest := succs n x in Ok (x :: rest)).
  destruct (next current) as [x| |]; cbn [bind]; try discriminate.
  destruct (succs n x) as [l'| |] eqn:Hl; cbn [bind]; try discriminate.
  intros [= <-]. exists x, l'. auto.
Qed.

Lemma successors_cons (n : nat) (current x : QuantumStep) (l : list QuantumStep) :
  next current = Ok x -> succs n x = Ok l -> succs (S n) current = Ok (x :: l).
Proof.
  intros Hx Hl.
  change (succs (S n) current)
    with (let* x := next current in let* rest := succs n x in Ok (x :: rest)).
  rewrite Hx. cbn [bind]. rewrite Hl. reflexivity.
Qed.

Lemma successors_length (n : nat) :
  forall current l, succs n current = Ok l -> List.length l = n.
Proof.
  induction n as [|n IH]; intros current l Hs.
  - cbn in Hs. now injection Hs as <-.
  - apply successors_S_inv in Hs. destruct Hs as (x & l' & -> & _ & Hs).
    cbn [List.length]. f_equal. eapply IH. exact Hs.
Qed.

Lemma stepsUntilLoop_unfold (fuel : nat) (current : QuantumStep) (steps : list QuantumStep) :
  loop (S fuel) current steps =
  if timestamp current <? targetTimestamp then
    let* current' := next current in
    if Z.of_nat (List.length (steps ++ [current'])) >? 1000000
    then Throw StepLimitExceeded
    else loop fuel current' (steps ++ [current'])
  else Ok steps.
Proof. reflexivity. Qed.

Lemma stepsUntilLoop_reached (fuel : nat) (current : QuantumStep) (steps : list QuantumStep) :
  targetTimestamp <= timestamp current -> loop fuel current steps = Ok steps.
Proof.
  intros H. destruct fuel; cbn;
    destruct (Z.ltb_spec (timestamp current) targetTimestamp); (lia || reflexivity).
Qed.

Lemma last_cons_default {A : Type} (l : list A) (a d : A) : last (a :: l) d = last l a.
Proof.
  revert a d. induction l as [|b l IH]; intros a d; [reflexivity|].
  change (last (a :: b :: l) d) with (last (b :: l) d).
  rewrite (IH b d), (IH b a). reflexivity.
Qed.

Lemma stepsUntilLoop_ok_inv (fuel : nat) :
  forall current acc steps,
    loop fuel current acc = Ok steps ->
    exists new,
      steps = acc ++ new /\
      succs (List.length new) current = Ok new /\
      allBefore targetTimestamp (removelast (current :: new)) /\
      targetTimestamp <= timestamp (last new current) /\
      (new = [] \/ Z.of_nat (List.length steps) <= 1000000).
Proof.
  induction fuel as [|fuel IH]; intros current acc steps H.
  - cbn in H. destruct (Z.ltb_spec (timestamp current) targetTimestamp); [discriminate|].
    injection H as <-. exists []. rewrite app_nil_r.
    repeat split; auto. constructor.
  - rewrite stepsUntilLoop_unfold in H.
    destruct (Z.ltb_spec (timestamp current) targetTimestamp) as [Hlt|Hge].
    + destruct (next current) as [n| |] eqn:Hn; cbn [bind] in H; try discriminate.
      destruct (Z.gtb_spec (Z.of_nat (List.length (acc ++ [n]))) 1000000) as [Hgt|Hle];
        [discriminate|].
      apply IH in H. destruct H as (new & -> & Hs & Hb & Ht & Hlen).
      exists (n :: new). rewrite <- app_assoc. cbn [app List.length].
      repeat split.
      * now apply successors_cons.
      * change (removelast (current :: n :: new)) with (current :: removelast (n :: new)).
        constructor; assumption.
      * rewrite last_cons_default. exact Ht.
      * right. destruct Hlen as [-> | Hlen];
          rewrite ?length_app in *; cbn [List.length] in *; lia.
    + injection H as <-. exists []. rewrite app_nil_r.
      repeat split; auto. constructor.
Qed.

Lemma stepsUntilLoop_ok_complete (new : list QuantumStep) :
  forall current acc fuel,
    succs (List.length new) current = Ok new ->
    allBefore targetTimestamp (removelast (current :: new)) ->
    targetTimestamp <= timestamp (last new current) ->
    Z.of_nat (List.length acc + List.length new) <= 1000000 ->
    (List.length new <= fuel)%nat ->
    loop fuel current acc = Ok (acc ++ new).
Proof.
  induction new as [|n new IH]; intros current acc fuel Hs Hb Ht Hlen Hfuel.
  - rewrite app_nil_r. apply stepsUntilLoop_reached. exact Ht.
  - cbn [List.length] in *.
    apply successors_S_inv in Hs. destruct Hs as (x & l' & [= <- <-] & Hn & Hs).
    change (removelast (current :: n :: new)) with (current :: removelast (n :: new)) in Hb.
    inversion Hb as [|? ? Hcur Hb']; subst.
    rewrite last_cons_default in Ht.
    destruct fuel as [|fuel]; [lia|].
    rewrite stepsUntilLoop_unfold, Hn. cbn [bind].
    destruct (Z.ltb_spec (timestamp current) targetTimestamp); [|lia].
    destruct (Z.gtb_spec (Z.of_nat (List.length (acc ++ [n]))) 1000000) as [Hgt|Hle].
    + rewrite length_app in Hgt. cbn [List.length] in Hgt. lia.
    + rewrite (IH n (acc ++ [n]) fuel); try assumption.
      * now rewrite <- app_assoc.
      * rewrite length_app. cbn [List.length]. lia.
      * lia.
Qed.

Lemma stepsUntilLoop_limit_inv (fuel : nat) :
  forall current acc,
    Z.of_nat (List.length acc) <= 1000000 ->
    loop fuel current acc = Throw StepLimitExceeded ->
    exists new,
      succs (List.length new) current = Ok new /\
      allBefore targetTimestamp (removelast (current :: new)) /\
      Z.of_nat (List.length acc + List.length new) = 1000001.
Proof.
  induction fuel as [|fuel IH]; intros current acc Hacc H.
  - cbn in H. destruct (timestamp current <? targetTimestamp); discriminate.
  - rewrite stepsUntilLoop_unfold in H.
    destruct (Z.ltb_spec (timestamp current) targetTimestamp) as [Hlt|Hge]; [|discriminate].
    destruct (next current) as [n|e|] eqn:Hn; cbn [bind] in H.
    + destruct (Z.gtb_spec (Z.of_nat (List.length (acc ++ [n]))) 1000000) as [Hgt|Hle].
      * exists [n]. rewrite length_app in Hgt. cbn [List.length] in *.
        repeat split.
        -- now apply successors_cons.
        -- repeat constructor. exact Hlt.
        -- lia.
      * apply IH in H; [|exact Hle]. destruct H as (new & Hs & Hb & Hlen).
        exists (n :: new). rewrite length_app in Hlen. cbn [List.length] in *.
        repeat split.
        -- now apply successors_cons.
        -- change (removelast (current :: n :: new))
             with (current :: removelast (n :: new)).
           constructor; assumption.
        -- lia.
    + injection H as ->. now destruct (calculateNextStep_outcome current) as [_ []].
    + discriminate.
Qed.

Lemma stepsUntilLoop_limit_complete (new : list QuantumStep) :
  forall current acc fuel,
    succs (List.length new) current = Ok new ->
    allBefore targetTimestamp (removelast (current :: new)) ->
    new <> [] ->
    Z.of_nat (List.length acc + List.length new) = 1000001 ->
    (List.length new <= fuel)%nat ->
    loop fuel current acc = Throw StepLimitExceeded.
Proof.
  induction new as [|n new IH]; intros current acc fuel Hs Hb Hne Hlen Hfuel;
    [congruence|].
  cbn [List.length] in *.
  apply successors_S_inv in Hs. destruct Hs as (x & l' & [= <- <-] & Hn & Hs).
  change (removelast (current :: n :: new)) with (current :: removelast (n :: new)) in Hb.
  inversion Hb as [|? ? Hcur Hb']; subst.
  destruct fuel as [|fuel]; [lia|].
  rewrite stepsUntilLoop_unfold, Hn. cbn [bind].
  destruct (Z.ltb_spec (timestamp current) targetTimestamp); [|lia].
  destruct (Z.gtb_spec (Z.of_nat (List.length (acc ++ [n]))) 1000000) as [Hgt|Hle];
    [reflexivity|].
  rewrite length_app in Hle. cbn [List.length] in Hle.
  apply IH; try assumption.
  - destruct new; [cbn [List.length] in *; lia | discriminate].
  - rewrite length_app. cbn [List.length]. lia.
  - lia.
Qed.

Lemma stepsUntilLoop_ends (fuel : nat) :
  forall current acc,
    Z.of_nat (List.length acc) <= 1000000 ->
    1000001 <= Z.of_nat (List.length acc) + Z.of_nat fuel ->
    loop fuel current acc <> Timeout.
Proof.
  induction fuel as [|fuel IH]; intros current acc Hacc Hfuel; [lia|].
  rewrite stepsUntilLoop_unfold.
  destruct (timestamp current <? targetTimestamp); [|discriminate].
  destruct (next current) as [n|e|] eqn:Hn; cbn [bind].
  - destruct (Z.gtb_spec (Z.of_nat (List.length (acc ++ [n]))) 1000000) as [Hgt|Hle];
      [discriminate|].
    apply IH; [exact Hle|]. rewrite length_app. cbn [List.length]. lia.
  - discriminate.
  - now destruct (calculateNextStep_outcome current) as [[] _].
Qed.

(** C8.  [calculateStepsUntil] returns [steps] exactly when [steps] are the
    successive steps after [startStep], generated while the current timestamp
    (of [startStep], then of each step but the last) is below
    [targetTimestamp], the last one being the first not below it, and they are
    at most one million.  It fails with the step-limit error exactly when
    [startStep] and the first million steps after it are all below
    [targetTimestamp], that is when step 1,000,001 has to be generated.  The
    model never runs out of fuel: the loop always ends. *)
Theorem calculateStepsUntil_spec (startStep : QuantumStep) :
  (forall steps,
     calculateStepsUntil crypto startStep targetTimestamp config = Ok steps <->
     successors crypto config (List.length steps) startStep = Ok steps /\
     allBefore targetTimestamp (removelast (startStep :: steps)) /\
     targetTimestamp <= timestamp (last steps startStep) /\
     Z.of_nat (List.length steps) <= 1000000)
  /\ (calculateStepsUntil crypto startStep targetTimestamp config
        = Throw StepLimitExceeded <->
      exists steps,
        successors crypto config (Z.to_nat 1000001) startStep = Ok steps /\
        allBefore targetTimestamp (removelast (startStep :: steps)))
  /\ calculateStepsUntil crypto startStep targetTimestamp config <> Timeout.
Proof.
  unfold calculateStepsUntil. fold loop. fold succs.
  remember (Z.to_nat 1000001) as fuel eqn:Hfuel.
  assert (Hf : Z.of_nat fuel = 1000001) by (subst fuel; apply Z2Nat.id; lia).
  clear Hfuel.
  split; [|split].
  - intros steps. split.
    + intros H. apply stepsUntilLoop_ok_inv in H.
      destruct H as (new & -> & Hs & Hb & Ht & Hlen). cbn [app] in *.
      repeat split; try assumption.
      destruct Hlen as [-> | Hlen]; [cbn; lia | exact Hlen].
    + intros (Hs & Hb & Ht & Hlen).
      apply (stepsUntilLoop_ok_complete steps startStep [] fuel); try assumption;
        cbn [List.length]; lia.
  - split.
    + intros H. apply stepsUntilLoop_limit_inv in H; [|cbn; lia].
      destruct H as (new & Hs & Hb & Hlen). cbn [List.length] in Hlen.
      exists new. split; [|exact Hb].
      replace fuel with (List.length new) by lia. exact Hs.
    + intros (steps & Hs & Hb).
      pose proof (successors_length _ _ _ Hs) as Hl.
      apply (stepsUntilLoop_limit_complete steps startStep [] fuel).
      * rewrite Hl. exact Hs.
      * exact Hb.
      * intros ->. cbn in Hl. lia.
      * cbn [List.length]. lia.
      * lia.
  - apply stepsUntilLoop_ends; cbn [List.length]; lia.
Qed.

End StepsUntil.

(** On the deployed chain the steps until 300000000 ms are steps 1 and 2. *)
Example calculateStepsUntil_deployed :
  calculateStepsUntil deployedCrypto origin 300000000 DEFAULT_CONFIG = Ok [step1; step2].
Proof. vm_compute. reflexivity. Qed.

(** C9 on the deployed chain.  The range from 1 ms to 1 ms: the nearest step
    to its start is the origin, which lies before the range, and it is
    returned.  The range from 226623914 ms to 226623914 ms: the nearest step
    to its start is step 1, which lies after the end of the range, and it is
    returned. *)
Theorem calculateStepsInRange_leaves_range :
  (calculateStepsInRange deployedCrypto 5 1 1 DEFAULT_CONFIG = Ok [origin]
   /\ timestamp origin < 1)
  /\ (calculateStepsInRange deployedCrypto 5 226623914 226623914 DEFAULT_CONFIG
      = Ok [step1]
      /\ 226623914 < timestamp step1).
Proof.
  repeat split; vm_compute; reflexivity.
Qed.

(** *** When the generator returns, and what it throws *)

Lemma allHex_app (a b : string) : allHex (a ++ b) = allHex a && allHex b.
Proof.
  induction a as [|c a IH]; cbn; [reflexivity|].
  destruct (hexDigit c); [exact IH | reflexivity].
Qed.

Lemma length_string_app (a b : string) :
  String.length (a ++ b) = (String.length a + String.length b)%nat.
Proof. induction a as [|c a IH]; cbn; [reflexivity | now rewrite IH]. Qed.

Lemma byteToHex_hex (b : Byte.byte) :
  allHex (byteToHex b) = true /\ String.length (byteToHex b) = 2%nat.
Proof. destruct b; split; reflexivity. Qed.

(** The digest written in hexadecimal: two digits for every byte. *)
Lemma hexBytes_format (bytes : list Byte.byte) :
  allHex (String.concat "" (map byteToHex bytes)) = true /\
  String.length (String.concat "" (map byteToHex bytes)) = (2 * List.length bytes)%nat.
Proof.
  induction bytes as [|b bytes [IHh IHl]]; [split; reflexivity|].
  destruct (byteToHex_hex b) as [Hh Hl].
  destruct bytes as [|b' bytes].
  - cbn [map String.concat List.length]. split; [exact Hh | exact Hl].
  - change (String.concat "" (map byteToHex (b :: b' :: bytes)))
      with (byteToHex b ++ "" ++ String.concat "" (map byteToHex (b' :: bytes)))%string.
    cbn [append]. rewrite allHex_app, length_string_app, Hh, Hl, IHh, IHl.
    cbn [List.length]. split; [reflexivity | lia].
Qed.

(** A hash that is not empty and whose leading characters are hexadecimal
    digits is converted. *)
Lemma hashToDuration_returns (h : string) (M : Z) :
  h <> EmptyString -> allHex (substring 0 16 h) = true ->
  exists d, hashToDuration h M = Ok d.
Proof.
  intros Hne Hhex. unfold hashToDuration, BigInt_of_hex.
  destruct (allHex_hexDigits (substring 0 16 h) 0 Hhex) as [v Hv]. rewrite Hv.
  destruct (substring 0 16 h) eqn:Hp.
  - destruct h; [congruence | discriminate Hp].
  - cbn [bind]. now eexists.
Qed.

(** The value of at most 16 hexadecimal digits fits 64 bits. *)
Lemma BigInt_of_hex_bounds (s : string) (v : Z) :
  BigInt_of_hex (substring 0 16 s) = Ok v -> 0 <= v <= maxUint64.
Proof.
  unfold BigInt_of_hex. pose proof (length_substring 16 s) as Hl.
  destruct (substring 0 16 s) as [|c p] eqn:Hp; [discriminate|].
  destruct (hexDigits 0 (String c p)) as [w|] eqn:Hw; [|discriminate].
  intros [= <-]. apply hexDigits_bounds in Hw; [|lia].
  assert (Hle : (String.length (String c p) <= 16)%nat) by lia.
  assert (Hpow : 16 ^ Z.of_nat (String.length (String c p)) <= 16 ^ 16)
    by (apply Z.pow_le_mono_r; lia).
  change (16 ^ 16) with (maxUint64 + 1) in Hpow. lia.
Qed.

(** Whenever [hashToDuration] returns, for a [maxInterval] of the safe
    integers that is not negative, the duration is not negative and does not
    exceed [maxInterval]. *)
Lemma hashToDuration_range (h : string) (M d : Z) :
  0 <= M <= MAX_SAFE_INTEGER -> hashToDuration h M = Ok d -> 0 <= d <= M.
Proof.
  intros HM. unfold hashToDuration.
  destruct (BigInt_of_hex (substring 0 16 h)) as [v| |] eqn:Hv; cbn [bind]; try discriminate.
  apply BigInt_of_hex_bounds in Hv. intros [= <-].
  assert (Hpos : 0 < maxUint64) by reflexivity.
  rewrite Z.quot_div_nonneg by nia.
  assert (Hlo : 0 <= v * M / maxUint64) by (apply Z.div_pos; nia).
  assert (Hhi : v * M / maxUint64 <= M)
    by (apply Z.div_le_upper_bound; [exact Hpos | nia]).
  rewrite Number_of_BigInt_safe; lia.
Qed.

Lemma toISOString_range (t : Z) :
  (exists iso, toISOString t = Ok iso) <-> Z.abs t <= 8640000000000000.
Proof.
  unfold toISOString.
  destruct (Z.gtb_spec (Z.abs t) 8640000000000000) as [Hgt|Hle].
  - split; [intros [iso H]; discriminate | lia].
  - destruct (civilFromDays (t / 86400000)) as [[y m] d].
    split; [intros _; exact Hle | intros _; now eexists].
Qed.

Section GeneratorOutcomes.
Variable crypto : Crypto.

(** What a computed step holds. *)
Lemma calculateNextStep_inv (s s' : QuantumStep) (config : QuantumConfig) :
  calculateNextStep crypto s config = Ok s' ->
  hashTimestamp crypto (timestamp s) = Ok (hash s') /\
  hashToDuration (hash s') (maxInterval config) = Ok (interval s') /\
  toISOString (timestamp s') = Ok (isoString s') /\
  index s' = index s + 1 /\
  timestamp s' = timestamp s + interval s'.
Proof.
  unfold calculateNextStep.
  destruct (hashTimestamp crypto (timestamp s)) as [h| |] eqn:Hh; cbn [bind];
    try discriminate.
  destruct (hashToDuration h (maxInterval config)) as [d| |] eqn:Hd; cbn [bind];
    try discriminate.
  destruct (toISOString (timestamp s + d)) as [iso| |] eqn:Hiso; cbn [bind];
    try discriminate.
  intros [= <-]. cbn. repeat split; (assumption || reflexivity).
Qed.

Lemma getInitialStep_inv (o : QuantumStep) :
  getInitialStep crypto = Ok o ->
  index o = 0 /\ timestamp o = 0 /\ interval o = 0 /\
  hashTimestamp crypto 0 = Ok (hash o) /\
  isoString o = "1970-01-01T00:00:00.000Z"%string.
Proof.
  unfold getInitialStep.
  destruct (hashTimestamp crypto 0) as [h| |]; cbn [bind]; try discriminate.
  intros [= <-]. cbn. auto.
Qed.

(** A step is computed when the host digests the timestamp into at least one
    byte and the timestamps up to [maxInterval] later are in the range of
    [Date]; the new timestamp is at most [maxInterval] later. *)
Lemma calculateNextStep_returns (digest : string -> option (list Byte.byte))
    (s : QuantumStep) (config : QuantumConfig) (bytes : list Byte.byte) :
  crypto = Some digest ->
  digest (Number_toString (timestamp s)) = Some bytes ->
  bytes <> [] ->
  0 <= maxInterval config <= MAX_SAFE_INTEGER ->
  - 8640000000000000 <= timestamp s ->
  timestamp s + maxInterval config <= 8640000000000000 ->
  exists s', calculateNextStep crypto s config = Ok s' /\
             timestamp s <= timestamp s' <= timestamp s + maxInterval config.
Proof.
  intros Hc Hd Hne HM Hlo Hhi. unfold calculateNextStep, hashTimestamp.
  rewrite Hc, Hd. cbn [bind].
  set (h := String.concat "" (map byteToHex bytes)).
  destruct (hexBytes_format bytes) as [Hhex Hlen]. fold h in Hhex, Hlen.
  assert (Hh : h <> EmptyString).
  { intros H0. rewrite H0 in Hlen. cbn in Hlen.
    destruct bytes; [congruence | cbn in Hlen; lia]. }
  destruct (hashToDuration_returns h (maxInterval config) Hh
              (allHex_substring 16 h Hhex)) as [d Hdur].
  rewrite Hdur. cbn [bind].
  pose proof (hashToDuration_range _ _ _ HM Hdur) as Hr.
  destruct (proj2 (toISOString_range (timestamp s + d))) as [iso Hiso]; [lia|].
  rewrite Hiso. cbn [bind]. eexists. split; [reflexivity|]. cbn. lia.
Qed.

(** The first [count] steps of the default chain are computed when hashing
    succeeds, as long as [count] intervals fit the range of [Date]. *)
Lemma stepsForwardLoop_returns (count : nat) :
  hashingSucceeds crypto ->
  forall current acc,
    0 <= timestamp current ->
    timestamp current + Z.of_nat count * MAX_INTERVAL_MS <= 8640000000000000 ->
    exists new,
      stepsForwardLoop crypto DEFAULT_CONFIG count current acc = Ok (acc ++ new)
      /\ List.length new = count.
Proof.
  intros (digest & Hc & Hd).
  induction count as [|count IH]; intros current acc Hlo Hhi.
  - exists []. rewrite app_nil_r. split; reflexivity.
  - destruct (Hd (Number_toString (timestamp current))) as (bytes & Hb & Hlen).
    assert (HM : 0 <= maxInterval DEFAULT_CONFIG <= MAX_SAFE_INTEGER)
      by (vm_compute; split; discriminate).
    change (maxInterval DEFAULT_CONFIG) with MAX_INTERVAL_MS in *.
    assert (HMpos : 0 <= MAX_INTERVAL_MS) by (vm_compute; discriminate).
    destruct (calculateNextStep_returns digest current DEFAULT_CONFIG bytes Hc Hb)
      as (x & Hx & Hts).
    + intros ->. discriminate Hlen.
    + exact HM.
    + lia.
    + change (maxInterval DEFAULT_CONFIG) with MAX_INTERVAL_MS. nia.
    + change (maxInterval DEFAULT_CONFIG) with MAX_INTERVAL_MS in Hts.
      cbn [stepsForwardLoop]. rewrite Hx. cbn [bind].
      destruct (IH x (acc ++ [x])) as (new & Hnew & Hl); [lia | nia |].
      exists (x :: new). rewrite Hnew, <- app_assoc. cbn [app List.length].
      split; [reflexivity | now rewrite Hl].
Qed.

(** Whatever the hasher, [BigInt] and [Date] throw is an error of the host;
    the generator throws nothing else, but for the step limit of
    [calculateStepsUntil]. *)
Lemma calculateNextStep_hostError (s : QuantumStep) (config : QuantumConfig) (e : error) :
  calculateNextStep crypto s config = Throw e -> hostError e.
Proof.
  unfold calculateNextStep, hashTimestamp, hashToDuration, BigInt_of_hex, toISOString,
    hostError.
  destruct crypto as [digest|]; cbn [bind]; [|intros [= <-]; auto].
  destruct (digest _); cbn [bind]; [|intros [= <-]; auto].
  destruct (substring 0 16 _); cbn [bind]; [intros [= <-]; auto|].
  destruct (hexDigits 0 _); cbn [bind]; [|intros [= <-]; auto].
  destruct (Z.abs _ >? _); cbn [bind]; [intros [= <-]; auto 6|].
  destruct (civilFromDays _) as [[y m] d]. cbn [bind]. discriminate.
Qed.

Lemma getInitialStep_hostError (e : error) :
  getInitialStep crypto = Throw e -> hostError e.
Proof.
  unfold getInitialStep, hashTimestamp, hostError.
  destruct crypto as [digest|]; cbn [bind]; [|intros [= <-]; auto].
  destruct (digest _); cbn [bind]; [discriminate | intros [= <-]; auto].
Qed.

Lemma stepsForwardLoop_hostError (config : QuantumConfig) (count : nat) (e : error) :
  forall current acc,
    stepsForwardLoop crypto config count current acc = Throw e -> hostError e.
Proof.
  induction count as [|count IH]; intros current acc; cbn [stepsForwardLoop];
    [discriminate|].
  destruct (calculateNextStep crypto current config) as [x|e'|] eqn:Hx; cbn [bind].
  - apply IH.
  - intros [= <-]. exact (calculateNextStep_hostError _ _ _ Hx).
  - discriminate.
Qed.

Lemma nearLoop_hostError (target : Z) (config : QuantumConfig) (fuel : nat) (e : error) :
  forall current, nearLoop crypto target config fuel current = Throw e -> hostError e.
Proof.
  induction fuel as [|fuel IH]; intros current; cbn [nearLoop];
    destruct (timestamp current <? target); try discriminate.
  destruct (calculateNextStep crypto current config) as [x|e'|] eqn:Hx; cbn [bind].
  - destruct (timestamp x >? target); [discriminate | apply IH].
  - intros [= <-]. exact (calculateNextStep_hostError _ _ _ Hx).
  - discriminate.
Qed.

Lemma rangeLoop_hostError (target : Z) (config : QuantumConfig) (fuel : nat) (e : error) :
  forall current acc,
    rangeLoop crypto target config fuel current acc = Throw e -> hostError e.
Proof.
  induction fuel as [|fuel IH]; intros current acc; cbn [rangeLoop];
    destruct (timestamp current <? target); try discriminate.
  destruct (calculateNextStep crypto current config) as [x|e'|] eqn:Hx; cbn [bind].
  - apply IH.
  - intros [= <-]. exact (calculateNextStep_hostError _ _ _ Hx).
  - discriminate.
Qed.

End GeneratorOutcomes.

(** ** The step cache *)

Lemma Map_get_set {V : Type} (m : JSMap V) (k k' : Z) (v : V) :
  Map_get (Map_set m k v) k' = if k =? k' then Some v else Map_get m k'.
Proof.
  induction m as [|[k0 v0] m IH]; cbn [Map_set Map_get].
  - reflexivity.
  - destruct (Z.eqb_spec k0 k) as [->|Hne]; cbn [Map_get].
    + destruct (Z.eqb_spec k k'); reflexivity.
    + rewrite IH. destruct (Z.eqb_spec k0 k'), (Z.eqb_spec k k'); try reflexivity; lia.
Qed.

(** In every cache reached from a new one, a checkpoint is stored under its own
    index. *)
Lemma checkpoints_keyed (ops : list cacheOp) :
  forall c,
    (forall k s, Map_get (checkpoints c) k = Some s -> index s = k) ->
    forall k s, Map_get (checkpoints (runOps c ops)) k = Some s -> index s = k.
Proof.
  induction ops as [|op ops IH]; intros c Hc; [exact Hc|].
  cbn [runOps fold_left]. apply IH. destruct op as [step now|]; cbn [applyOp].
  - unfold StepCache_set. cbn [checkpoints]. intros k s.
    destruct (Z.rem (index step) 1000 =? 0); [|apply Hc].
    rewrite Map_get_set. destruct (Z.eqb_spec (index step) k) as [<-|_]; [|apply Hc].
    now intros [= <-].
  - cbn. discriminate.
Qed.

(** What [getNearestCheckpoint] returns is the checkpoint of the thousand the
    target lies in, and no earlier one. *)
Lemma getNearestCheckpoint_bucket (ops : list cacheOp) (targetIndex : Z) (s : QuantumStep) :
  getNearestCheckpoint (runOps globalStepCache ops) targetIndex = Some s ->
  index s = targetIndex / 1000 * 1000.
Proof.
  unfold getNearestCheckpoint. apply checkpoints_keyed. cbn. discriminate.
Qed.

(** C5 on the cache that holds the origin only: checkpoint 0 lies at or before
    index 1500 and nothing is returned for 1500. *)
Theorem getNearestCheckpoint_misses_earlier :
  let c := runOps globalStepCache [OpSet origin 0] in
  Map_get (checkpoints c) 0 = Some origin /\
  index origin <= 1500 /\
  getNearestCheckpoint c 1500 = None.
Proof.
  repeat split; vm_compute; congruence.
Qed.

(** ** The sequence matcher *)

Section Alignment.
Context {num : Type} {N : Number num}.

Lemma slice_window {A : Type} (l : list A) (offset targetLength : nat) :
  slice l offset (offset + targetLength) = firstn targetLength (skipn offset l).
Proof. unfold slice. f_equal. lia. Qed.

Lemma In_windowOffsets (len targetLength offset : nat) :
  In offset (windowOffsets len targetLength) <-> (offset + targetLength <= len)%nat.
Proof.
  unfold windowOffsets. destruct (Nat.leb_spec targetLength len) as [Hle|Hlt].
  - rewrite in_seq. lia.
  - cbn. lia.
Qed.

(** The search keeps the initial offset or moves to an offset it visits. *)
Lemma search_offset (userIntervals quantumIntervals : list num) (targetLength : nat)
    (offsets : list nat) :
  forall best,
    let best' :=
      fold_left (searchStep userIntervals quantumIntervals targetLength) offsets best in
    snd best' = snd best \/ In (snd best') offsets.
Proof.
  induction offsets as [|o offsets IH]; intros best; cbn [fold_left].
  - left. reflexivity.
  - cbv zeta in IH.
    destruct (IH (searchStep userIntervals quantumIntervals targetLength best o))
      as [H|H].
    + rewrite H. unfold searchStep. destruct (greater _ _); cbn [snd]; [right|left].
      * now left.
      * reflexivity.
    + right. now right.
Qed.

(** The offset of the best alignment is the initial 0 or the offset of a
    window that fits in the candidate steps. *)
Lemma findBestAlignment_offset (userIntervals : list num)
    (quantumSteps : list QuantumStep) (windowSize : option nat) :
  let windowLength :=
    match windowSize with
    | Some (S w) => S w
    | _ => List.length userIntervals
    end in
  let a := findBestAlignment userIntervals quantumSteps windowSize in
  SequenceAlignment.offset a = 0%nat
  \/ (SequenceAlignment.offset a + windowLength <= List.length quantumSteps)%nat.
Proof.
  intros windowLength a. subst a. unfold findBestAlignment. fold windowLength.
  cbn [SequenceAlignment.offset].
  destruct (search_offset userIntervals (extractIntervals quantumSteps) windowLength
              (windowOffsets (List.length (extractIntervals quantumSteps)) windowLength)
              (ofZ (-1), 0%nat)) as [H|H].
  - left. exact H.
  - right. apply In_windowOffsets in H.
    etransitivity; [exact H|].
    unfold extractIntervals. rewrite length_map. reflexivity.
Qed.

Lemma findBestAlignment_alignedSteps (userIntervals : list num)
    (quantumSteps : list QuantumStep) (windowSize : option nat) :
  let windowLength :=
    match windowSize with
    | Some (S w) => S w
    | _ => List.length userIntervals
    end in
  let a := findBestAlignment userIntervals quantumSteps windowSize in
  SequenceAlignment.alignedSteps a
  = firstn windowLength (skipn (SequenceAlignment.offset a) quantumSteps).
Proof.
  intros windowLength a. subst a. unfold findBestAlignment. fold windowLength.
  cbn [SequenceAlignment.offset SequenceAlignment.alignedSteps].
  apply slice_window.
Qed.

(** With enough candidate steps the best alignment of the whole user sequence
    holds as many steps as the user sequence has intervals. *)
Lemma findBestAlignment_full (userIntervals : list num) (quantumSteps : list QuantumStep) :
  (List.length userIntervals <= List.length quantumSteps)%nat ->
  List.length (SequenceAlignment.alignedSteps
                 (findBestAlignment userIntervals quantumSteps None))
  = List.length userIntervals.
Proof.
  intros Hle.
  pose proof (findBestAlignment_offset userIntervals quantumSteps None) as Ho.
  pose proof (findBestAlignment_alignedSteps userIntervals quantumSteps None) as Ha.
  cbv zeta in Ho, Ha. rewrite Ha, length_firstn, length_skipn. lia.
Qed.

(** C10.  [findBestAlignment] is total and its [length] field is the window
    length: [windowSize], or the number of user intervals when [windowSize] is
    missing or zero.  With at least that many candidate steps the offset lies
    in [[0, candidates - windowLength]] and [alignedSteps] is the slice of
    exactly [windowLength] candidate steps that starts at the offset.  With
    fewer candidate steps the offset is 0 and [alignedSteps] holds the
    candidate steps there are, fewer than the [length] field says. *)
Theorem findBestAlignment_shape (userIntervals : list num)
    (quantumSteps : list QuantumStep) (windowSize : option nat) :
  let windowLength :=
    match windowSize with
    | Some (S w) => S w
    | _ => List.length userIntervals
    end in
  let a := findBestAlignment userIntervals quantumSteps windowSize in
  SequenceAlignment.length a = windowLength /\
  ((windowLength <= List.length quantumSteps)%nat ->
     (SequenceAlignment.offset a <= List.length quantumSteps - windowLength)%nat /\
     SequenceAlignment.alignedSteps a
     = firstn windowLength (skipn (SequenceAlignment.offset a) quantumSteps) /\
     List.length (SequenceAlignment.alignedSteps a) = windowLength) /\
  ((List.length quantumSteps < windowLength)%nat ->
     SequenceAlignment.offset a = 0%nat /\
     SequenceAlignment.alignedSteps a = quantumSteps /\
     (List.length (SequenceAlignment.alignedSteps a) < SequenceAlignment.length a)%nat).
Proof.
  intros windowLength a.
  pose proof (findBestAlignment_offset userIntervals quantumSteps windowSize) as Ho.
  pose proof (findBestAlignment_alignedSteps userIntervals quantumSteps windowSize) as Ha.
  cbv zeta in Ho, Ha. fold windowLength in Ho, Ha. fold a in Ho, Ha.
  assert (Hl : SequenceAlignment.length a = windowLength) by reflexivity.
  split; [exact Hl|]. split.
  - intros Hle. split; [lia|]. split; [exact Ha|].
    rewrite Ha, length_firstn, length_skipn. lia.
  - intros Hlt. assert (H0 : SequenceAlignment.offset a = 0%nat) by lia.
    rewrite Hl, Ha, H0. cbn [skipn]. split; [reflexivity|].
    rewrite firstn_all2 by lia. split; [reflexivity | exact Hlt].
Qed.

(** A user sequence of three intervals against a single candidate step: the
    alignment claims length 3 and holds one step. *)
Example findBestAlignment_short_candidates :
  findBestAlignment [1%float; 2%float; 3%float] [step1] None
  = {| SequenceAlignment.offset := 0;
       SequenceAlignment.length := 3;
       SequenceAlignment.alignedSteps := [step1] |}.
Proof. vm_compute. reflexivity. Qed.

End Alignment.

Section MatchSequence.
Context {num : Type} {N : Number num}.
Variable crypto : Crypto.
Variable maxArguments : nat.

(** An empty user sequence is rejected first, whatever the host does. *)
Lemma matchSequence_rejects_empty (fuel : nat) (input : UserSequenceInput num) :
  parseUserInput input = [] ->
  matchSequence crypto maxArguments fuel input = Throw NoIntervals.
Proof. intros H. unfold matchSequence. rewrite H. reflexivity. Qed.

(** [calculateStatistics] returns when the common prefix of its arguments is
    within what the engine takes as the arguments of [Math.max]; beyond that
    the spread call throws. *)
Lemma calculateStatistics_outcome (u q : list num) :
  let n := Nat.min (List.length u) (List.length q) in
  ((n <= maxArguments)%nat -> exists st, calculateStatistics maxArguments u q = Ok st) /\
  ((maxArguments < n)%nat -> calculateStatistics maxArguments u q = Throw TooManyArguments).
Proof.
  intros n. unfold calculateStatistics, Math_max_of, Math_min_of. fold n.
  rewrite length_map, length_seq.
  destruct (Nat.leb_spec n maxArguments) as [Hle|Hgt]; cbn [bind].
  - split; [intros _; now eexists | lia].
  - split; [lia | reflexivity].
Qed.

Lemma candidateSteps_hostError (fuel : nat) (input : UserSequenceInput num) (e : error) :
  candidateSteps crypto fuel input = Throw e -> hostError e.
Proof.
  unfold candidateSteps. destruct (searchRange input) as [[rangeStart rangeEnd]|].
  - unfold calculateStepsInRange, findStepNearTimestamp.
    destruct (getInitialStep crypto) as [o|e'|] eqn:Ho; cbn [bind].
    + destruct (nearLoop crypto rangeStart DEFAULT_CONFIG fuel o) as [f|e'|] eqn:Hf;
        cbn [bind].
      * apply rangeLoop_hostError.
      * intros [= <-]. exact (nearLoop_hostError _ _ _ _ _ _ Hf).
      * discriminate.
    + intros [= <-]. exact (getInitialStep_hostError _ _ Ho).
    + discriminate.
  - destruct (getInitialStep crypto) as [o|e'|] eqn:Ho; cbn [bind].
    + apply stepsForwardLoop_hostError.
    + intros [= <-]. exact (getInitialStep_hostError _ _ Ho).
    + discriminate.
Qed.

(** Without a search range the candidates are the first 10,000 steps of the
    chain; they are all computed when hashing succeeds. *)
Lemma candidateSteps_default (fuel : nat) (input : UserSequenceInput num) :
  searchRange input = None ->
  hashingSucceeds crypto ->
  exists steps,
    candidateSteps crypto fuel input = Ok steps /\ List.length steps = Z.to_nat 10000.
Proof.
  intros Hr Hh. unfold candidateSteps. rewrite Hr.
  destruct (getInitialStep crypto) as [o| |] eqn:Ho.
  - cbn [bind]. apply getInitialStep_inv in Ho. destruct Ho as (_ & Ht & _).
    destruct (stepsForwardLoop_returns crypto (Z.to_nat 10000) Hh o []) as (new & Hn & Hl).
    + lia.
    + rewrite Ht, Z2Nat.id by lia. vm_compute. discriminate.
    + exists new. split; [exact Hn | exact Hl].
  - exfalso. destruct Hh as (digest & Hc & Hd). unfold getInitialStep, hashTimestamp in Ho.
    rewrite Hc in Ho. destruct (Hd (Number_toString 0)) as (bytes & Hb & _).
    rewrite Hb in Ho. discriminate Ho.
  - exfalso. destruct Hh as (digest & Hc & Hd). unfold getInitialStep, hashTimestamp in Ho.
    rewrite Hc in Ho. destruct (Hd (Number_toString 0)) as (bytes & Hb & _).
    rewrite Hb in Ho. discriminate Ho.
Qed.

(** After the first validation [matchSequence] obtains the candidate steps,
    validates their number, aligns, scores and computes the statistics. *)
Lemma matchSequence_unfold (fuel : nat) (input : UserSequenceInput num) :
  parseUserInput input <> [] ->
  matchSequence crypto maxArguments fuel input
  = (let user := parseUserInput input in
     let* steps := candidateSteps crypto fuel input in
     if Nat.ltb (List.length steps) (List.length user) then Throw SearchRangeTooSmall
     else
       let aligned :=
         SequenceAlignment.alignedSteps (findBestAlignment user steps None) in
       let* statistics :=
         calculateStatistics maxArguments user (extractIntervals aligned) in
       Ok (mkMatchResult
             (calculateSimilarity user (extractIntervals aligned) defaultMaxInterval)
             (findBestAlignment user steps None) aligned statistics user
             (extractIntervals aligned))).
Proof.
  intros Hne. unfold matchSequence.
  destruct (parseUserInput input) as [|u user']; [congruence | reflexivity].
Qed.

(** C7.  What [matchSequence] does, whatever the host.

    The validation is as specified.  An empty user sequence is rejected
    with 'No intervals to match' before anything else is done; candidate
    steps fewer than the user intervals are rejected with 'Search range too
    small ...' before any alignment is computed; and a validation error is
    thrown in these two cases only.

    After the validation the specification promises a [MatchResult].  The code
    returns one, whose alignment is the best alignment of the whole user
    sequence, as long as the user intervals are no more than the engine takes
    arguments in a call.  Beyond that [calculateStatistics] throws the
    RangeError of [Math.max(...errors)]: no [MatchResult] is returned.

    The candidate steps: when obtaining them throws, [matchSequence] throws
    the same error, an error of the host; when it does not end, neither does
    [matchSequence].  Without a search range and with hashing succeeding the
    candidates are obtained, 10,000 of them. *)
Theorem matchSequence_outcomes (fuel : nat) (input : UserSequenceInput num) :
  let user := parseUserInput input in
  let candidates := candidateSteps crypto fuel input in
  let outcome := matchSequence crypto maxArguments fuel input in
  (user = [] -> outcome = Throw NoIntervals) /\
  (forall steps, user <> [] -> candidates = Ok steps ->
     (List.length steps < List.length user)%nat ->
     outcome = Throw SearchRangeTooSmall) /\
  ((exists e, outcome = Throw e /\ validationError e) <->
   user = [] \/
   exists steps, candidates = Ok steps /\ (List.length steps < List.length user)%nat) /\
  (forall steps, user <> [] -> candidates = Ok steps ->
     (List.length user <= List.length steps)%nat ->
     ((List.length user <= maxArguments)%nat ->
        exists r, outcome = Ok r /\
          alignment num r = findBestAlignment user steps None /\
          matchedSteps num r = SequenceAlignment.alignedSteps (alignment num r) /\
          userIntervals num r = user /\
          List.length (matchedSteps num r) = List.length user) /\
     ((maxArguments < List.length user)%nat -> outcome = Throw TooManyArguments)) /\
  (user <> [] ->
     (forall e, candidates = Throw e -> outcome = Throw e /\ hostError e) /\
     (candidates = Timeout -> outcome = Timeout)) /\
  (searchRange input = None -> hashingSucceeds crypto ->
     exists steps, candidates = Ok steps /\ List.length steps = Z.to_nat 10000).
Proof.
  intros user candidates outcome.
  assert (Hempty : user = [] -> outcome = Throw NoIntervals)
    by apply matchSequence_rejects_empty.
  assert (Hshort : forall steps, user <> [] -> candidates = Ok steps ->
            (List.length steps < List.length user)%nat ->
            outcome = Throw SearchRangeTooSmall).
  { intros steps Hne Hc Hlt. subst outcome. rewrite matchSequence_unfold by exact Hne.
    fold candidates. rewrite Hc. cbn [bind]. fold user.
    destruct (Nat.ltb_spec (List.length steps) (List.length user)); [reflexivity | lia]. }
  assert (Hafter : forall steps, user <> [] -> candidates = Ok steps ->
            (List.length user <= List.length steps)%nat ->
            ((List.length user <= maxArguments)%nat ->
               exists r, outcome = Ok r /\
                 alignment num r = findBestAlignment user steps None /\
                 matchedSteps num r = SequenceAlignment.alignedSteps (alignment num r) /\
                 userIntervals num r = user /\
                 List.length (matchedSteps num r) = List.length user) /\
            ((maxArguments < List.length user)%nat -> outcome = Throw TooManyArguments)).
  { intros steps Hne Hc Hle. subst outcome. rewrite matchSequence_unfold by exact Hne.
    fold candidates. rewrite Hc. cbn [bind]. fold user.
    destruct (Nat.ltb_spec (List.length steps) (List.length user)) as [Hlt|_]; [lia|].
    pose proof (findBestAlignment_full user steps Hle) as Hfull.
    set (aligned := SequenceAlignment.alignedSteps (findBestAlignment user steps None))
      in *.
    destruct (calculateStatistics_outcome user (extractIntervals aligned))
      as [Hok Hthrow].
    assert (Hn : Nat.min (List.length user) (List.length (extractIntervals aligned))
                 = List.length user).
    { unfold extractIntervals. rewrite length_map, Hfull. apply Nat.min_id. }
    cbv zeta in Hok, Hthrow. rewrite Hn in Hok, Hthrow. split.
    - intros Hargs. destruct (Hok Hargs) as [st ->]. cbn [bind].
      eexists. split; [reflexivity|].
      cbn [alignment matchedSteps userIntervals]. repeat split. exact Hfull.
    - intros Hargs. rewrite (Hthrow Hargs). reflexivity. }
  assert (Hcand : user <> [] ->
            (forall e, candidates = Throw e -> outcome = Throw e /\ hostError e) /\
            (candidates = Timeout -> outcome = Timeout)).
  { intros Hne. subst outcome. rewrite matchSequence_unfold by exact Hne.
    fold candidates. split.
    - intros e He. rewrite He. split; [reflexivity|].
      exact (candidateSteps_hostError fuel input e He).
    - intros ->. reflexivity. }
  split; [exact Hempty|]. split; [exact Hshort|]. split; [|split; [exact Hafter|]].
  - split.
    + intros (e & He & Hv).
      destruct user as [|u user'] eqn:Hu; [now left|]. right.
      assert (Hne : u :: user' <> []) by discriminate.
      destruct candidates as [steps|e'|] eqn:Hc.
      * exists steps. split; [reflexivity|].
        destruct (Nat.lt_ge_cases (List.length steps) (List.length (u :: user')))
          as [Hlt|Hge]; [exact Hlt|].
        destruct (Hafter steps Hne eq_refl Hge) as [Hok Hthrow].
        destruct (Nat.le_gt_cases (List.length (u :: user')) maxArguments) as [Ha|Ha].
        -- destruct (Hok Ha) as (r & Hr & _). congruence.
        -- rewrite (Hthrow Ha) in He. injection He as <-.
           destruct Hv as [Hv|Hv]; discriminate Hv.
      * destruct (proj1 (Hcand Hne) e' eq_refl) as [Ho Hh].
        rewrite Ho in He. injection He as <-.
        destruct Hv as [-> | ->];
          destruct Hh as [Hh|[Hh|[Hh|Hh]]]; discriminate Hh.
      * rewrite (proj2 (Hcand Hne) eq_refl) in He. discriminate He.
    + intros [He|(steps & Hc & Hlt)].
      * exists NoIntervals. split; [now apply Hempty | now left].
      * destruct user as [|u user'] eqn:Hu.
        -- exists NoIntervals. split; [now apply Hempty | now left].
        -- exists SearchRangeTooSmall. split; [|now right].
           apply (Hshort steps); [discriminate | exact Hc | exact Hlt].
  - split; [exact Hcand|]. apply candidateSteps_default.
Qed.

End MatchSequence.

(** On the deployed chain, two user intervals against the three steps of the
    range from 0 to 600000000 ms: an engine that takes 100,000 arguments
    returns the match at offset 1; for an engine that takes a single argument
    the two errors are too many and the RangeError is thrown.  With a host
    that digests every text into the same 32 bytes the default candidates are
    obtained. *)
Lemma matchSequence_outcomes_witness :
  (exists r,
     matchSequence deployedCrypto (Z.to_nat 100000) 5 exampleInput = Ok r /\
     SequenceAlignment.offset (alignment float r) = 1%nat /\
     matchedSteps float r = [step1; step2]) /\
  matchSequence deployedCrypto 1 5 exampleInput = Throw TooManyArguments /\
  (exists steps,
     candidateSteps constantCrypto 0
       (mkInput intervals [226623915%float] None) = Ok steps
     /\ List.length steps = Z.to_nat 10000).
Proof.
  assert (Hc : candidateSteps deployedCrypto 5 exampleInput = Ok [origin; step1; step2])
    by (vm_compute; reflexivity).
  assert (Hne : parseUserInput exampleInput <> []) by discriminate.
  split; [|split].
  - destruct (matchSequence_outcomes deployedCrypto (Z.to_nat 100000) 5 exampleInput)
      as (_ & _ & _ & Hafter & _).
    destruct (Hafter _ Hne Hc) as [Hok _]; [cbn; lia|].
    destruct Hok as (r & Hr & Ha & Hm & _); [cbn; lia|].
    exists r. split; [exact Hr|]. rewrite Hm, Ha. split; vm_compute; reflexivity.
  - destruct (matchSequence_outcomes deployedCrypto 1 5 exampleInput)
      as (_ & _ & _ & Hafter & _).
    destruct (Hafter _ Hne Hc) as [_ Hthrow]; [cbn; lia|].
    apply Hthrow. cbn. lia.
  - destruct (matchSequence_outcomes constantCrypto 1 0
                (mkInput intervals [226623915%float] None))
      as (_ & _ & _ & _ & _ & Hdefault).
    apply Hdefault; [reflexivity|].
    eexists. split; [reflexivity|]. intros data. eexists. split; reflexivity.
Defined.

(** ** The order of binary64 numbers *)

Lemma SFcompare_key (a b : spec_float) :
  SFcompare a b =
  match SFkey a, SFkey b with
  | Some x, Some y => Some (lexcompare x y)
  | _, _ => None
  end.
Proof.
  destruct a as [s1|s1| |s1 m1 e1], b as [s2|s2| |s2 m2 e2];
    try destruct s1; try destruct s2; cbn; try reflexivity.
  rewrite Z.compare_opp, (Z.compare_antisym e1 e2).
  destruct (e1 ?= e2); reflexivity.
Qed.

Lemma lexcompare_Lt (a b : Z * Z * Z) : lexcompare a b = Lt <-> lexlt a b.
Proof.
  destruct a as [[c1 e1] m1], b as [[c2 e2] m2]. unfold lexcompare, lexlt.
  destruct (Z.compare_spec c1 c2); destruct (Z.compare_spec e1 e2);
    destruct (Z.compare_spec m1 m2); split; intros;
    try discriminate; try reflexivity; lia.
Qed.

Lemma lexcompare_Gt (a b : Z * Z * Z) : lexcompare a b = Gt <-> lexlt b a.
Proof.
  destruct a as [[c1 e1] m1], b as [[c2 e2] m2]. unfold lexcompare, lexlt.
  destruct (Z.compare_spec c1 c2); destruct (Z.compare_spec e1 e2);
    destruct (Z.compare_spec m1 m2); split; intros;
    try discriminate; try reflexivity; lia.
Qed.

(** The three comparisons and the NaN test, read on the keys. *)
Lemma ltb_keyOf (a b : float) :
  PrimFloat.ltb a b = true <->
  match keyOf a, keyOf b with
  | Some x, Some y => lexlt x y
  | _, _ => False
  end.
Proof.
  rewrite FloatAxioms.ltb_spec. unfold SFltb, keyOf. rewrite SFcompare_key.
  destruct (SFkey (Prim2SF a)) as [x|], (SFkey (Prim2SF b)) as [y|];
    try (split; [discriminate | contradiction]).
  rewrite <- lexcompare_Lt. destruct (lexcompare x y); split; congruence.
Qed.

Lemma leb_keyOf (a b : float) :
  PrimFloat.leb a b = true <->
  match keyOf a, keyOf b with
  | Some x, Some y => ~ lexlt y x
  | _, _ => False
  end.
Proof.
  rewrite FloatAxioms.leb_spec. unfold SFleb, keyOf. rewrite SFcompare_key.
  destruct (SFkey (Prim2SF a)) as [x|], (SFkey (Prim2SF b)) as [y|];
    try (split; [discriminate | contradiction]).
  rewrite <- lexcompare_Gt. destruct (lexcompare x y); split; congruence.
Qed.

Lemma eqb_keyOf (a b : float) :
  PrimFloat.eqb a b = true <->
  match keyOf a, keyOf b with
  | Some x, Some y => ~ lexlt x y /\ ~ lexlt y x
  | _, _ => False
  end.
Proof.
  rewrite FloatAxioms.eqb_spec. unfold SFeqb, keyOf. rewrite SFcompare_key.
  destruct (SFkey (Prim2SF a)) as [x|], (SFkey (Prim2SF b)) as [y|];
    try (split; [discriminate | contradiction]).
  rewrite <- (lexcompare_Gt x y), <- (lexcompare_Lt x y).
  destruct (lexcompare x y); intuition congruence.
Qed.

Lemma is_nan_keyOf (a : float) :
  PrimFloat.is_nan a = false <-> keyOf a <> None.
Proof.
  unfold PrimFloat.is_nan. rewrite negb_false_iff, eqb_keyOf.
  destruct (keyOf a) as [[[c e] m]|]; [|tauto].
  split; [discriminate|]. intros _. unfold lexlt. lia.
Qed.

Lemma keyOf_0 : keyOf 0 = Some (0, 0, 0).
Proof. reflexivity. Qed.

Lemma keyOf_1 : keyOf 1 = Some (1, -52, 4503599627370496).
Proof. reflexivity. Qed.

Lemma keyOf_minus_1 : keyOf (-1) = Some (-1, 52, -4503599627370496).
Proof. reflexivity. Qed.

(** Turns the float comparisons of the context and of the goal into linear
    arithmetic on the keys. *)
Ltac float_order :=
  repeat match goal with
         | H : PrimFloat.is_nan _ = true |- _ =>
             apply not_false_iff_true in H; rewrite is_nan_keyOf in H
         | H : _ = false |- _ =>
             first [ rewrite is_nan_keyOf in H
                   | apply not_true_iff_false in H;
                     first [rewrite ltb_keyOf in H | rewrite leb_keyOf in H
                           | rewrite eqb_keyOf in H] ]
         | H : _ = true |- _ =>
             first [rewrite ltb_keyOf in H | rewrite leb_keyOf in H
                   | rewrite eqb_keyOf in H]
         end;
  repeat match goal with
         | |- PrimFloat.is_nan _ = true => apply not_false_iff_true; rewrite is_nan_keyOf
         | |- PrimFloat.is_nan _ = false => rewrite is_nan_keyOf
         | |- _ = false => apply not_true_iff_false
         | |- _ = true => first [rewrite ltb_keyOf | rewrite leb_keyOf | rewrite eqb_keyOf]
         | |- ~ (_ = true) => first [rewrite ltb_keyOf | rewrite leb_keyOf | rewrite eqb_keyOf]
         end;
  rewrite ?keyOf_0, ?keyOf_1, ?keyOf_minus_1 in *;
  repeat match goal with
         | H : context [keyOf ?a] |- _ =>
             let k := fresh "k" in
             (set (k := keyOf a) in *; clearbody k; destruct k as [[[? ?] ?]|])
         | |- context [keyOf ?a] =>
             let k := fresh "k" in
             (set (k := keyOf a) in *; clearbody k; destruct k as [[[? ?] ?]|])
         end;
  unfold lexlt in *; try tauto; try congruence; try lia.

Lemma f64_lt_not_nan (a b : float) :
  PrimFloat.ltb a b = true -> PrimFloat.is_nan a = false /\ PrimFloat.is_nan b = false.
Proof. intros H. split; float_order. Qed.

Lemma f64_lt_irrefl (a : float) : PrimFloat.ltb a a = false.
Proof. float_order. Qed.

Lemma f64_lt_trans (a b c : float) :
  PrimFloat.ltb a b = true -> PrimFloat.ltb b c = true -> PrimFloat.ltb a c = true.
Proof. intros H1 H2. float_order. Qed.

Lemma f64_lt_cotrans (a b c : float) :
  PrimFloat.ltb a c = true -> PrimFloat.is_nan b = false ->
  PrimFloat.ltb a b = true \/ PrimFloat.ltb b c = true.
Proof.
  intros H1 H2.
  destruct (PrimFloat.ltb a b) eqn:Hab; [now left|]. right. float_order.
Qed.

Lemma f64_eq_of_not_lt (a b : float) :
  PrimFloat.is_nan a = false -> PrimFloat.is_nan b = false ->
  PrimFloat.ltb a b = false -> PrimFloat.ltb b a = false ->
  PrimFloat.eqb a b = true.
Proof. intros H1 H2 H3 H4. float_order. Qed.

Lemma f64_min_1 (x : float) :
  PrimFloat.is_nan x = false ->
  f64_min 1 x = if PrimFloat.ltb 1 x then 1%float else x.
Proof.
  intros H. unfold f64_min. rewrite H.
  change (PrimFloat.is_nan 1) with false. change (PrimFloat.get_sign 1) with false.
  cbn [orb]. destruct (PrimFloat.ltb 1 x), (PrimFloat.ltb x 1); reflexivity.
Qed.

Lemma f64_max_0 (x : float) :
  PrimFloat.is_nan x = false ->
  f64_max 0 x = if PrimFloat.ltb 0 x then x else 0%float.
Proof.
  intros H. unfold f64_max. rewrite H.
  change (PrimFloat.is_nan 0) with false. change (PrimFloat.get_sign 0) with false.
  cbn [orb]. destruct (PrimFloat.ltb 0 x), (PrimFloat.ltb x 0); reflexivity.
Qed.

(** The clamp yields NaN or a number of the unit interval. *)
Lemma f64_clamp01 (x : float) :
  PrimFloat.is_nan (clamp01 x) = true
  \/ (PrimFloat.leb 0 (clamp01 x) = true /\ PrimFloat.leb (clamp01 x) 1 = true).
Proof.
  unfold clamp01. cbn [Math_max Math_min ofZ binary64].
  change (f64_ofZ 0) with 0%float. change (f64_ofZ 1) with 1%float.
  destruct (PrimFloat.is_nan x) eqn:Hx.
  - left. unfold f64_min. rewrite Hx, orb_true_r. reflexivity.
  - right. rewrite (f64_min_1 x Hx).
    destruct (PrimFloat.ltb 1 x) eqn:H1.
    + split; reflexivity.
    + rewrite (f64_max_0 x Hx). destruct (PrimFloat.ltb 0 x) eqn:H0.
      * split; float_order.
      * split; reflexivity.
Qed.

(** What [calculateSimilarity] returns in binary64 is NaN or lies in [[0, 1]]. *)
Lemma calculateSimilarity_unit (userIntervals quantumIntervals : list float)
    (maxInterval : float) :
  let r := calculateSimilarity userIntervals quantumIntervals maxInterval in
  PrimFloat.is_nan r = true \/ (PrimFloat.leb 0 r = true /\ PrimFloat.leb r 1 = true).
Proof.
  unfold calculateSimilarity.
  destruct (Nat.eqb _ 0).
  - right. split; reflexivity.
  - apply f64_clamp01.
Qed.

Lemma calculateSimilarity_above_minus_1 (userIntervals quantumIntervals : list float)
    (maxInterval : float) :
  let r := calculateSimilarity userIntervals quantumIntervals maxInterval in
  PrimFloat.is_nan r = false -> PrimFloat.ltb (-1) r = true.
Proof.
  intros r Hr.
  destruct (calculateSimilarity_unit userIntervals quantumIntervals maxInterval)
    as [H|[H0 H1]]; fold r in H || fold r in H0, H1.
  - congruence.
  - clear H1. float_order.
Qed.

Section TieBreak.
Variable userIntervals : list float.
Variable quantumIntervals : list float.
Variable targetLength : nat.

Let score (j : nat) : float :=
  calculateSimilarity userIntervals
    (slice quantumIntervals j (j + targetLength)) defaultMaxInterval.

Let round := searchStep userIntervals quantumIntervals targetLength.

(** One round of the search keeps the invariant of the loop: the best score
    is a number, no window seen so far beats it, and it is either the initial
    -1 or the score of the recorded offset, which every earlier window is
    strictly below (or NaN). *)
Lemma searchStep_invariant (a : nat) (best : float * nat) :
  (PrimFloat.is_nan (fst best) = false /\
   (forall j, (j < a)%nat -> PrimFloat.ltb (fst best) (score j) = false) /\
   ((fst best = (-1)%float /\ snd best = 0%nat) \/
    ((snd best < a)%nat /\ fst best = score (snd best) /\
     forall j, (j < snd best)%nat ->
       PrimFloat.ltb (score j) (fst best) = true \/ PrimFloat.is_nan (score j) = true))) ->
  let best' := round best a in
  PrimFloat.is_nan (fst best') = false /\
  (forall j, (j < S a)%nat -> PrimFloat.ltb (fst best') (score j) = false) /\
  ((fst best' = (-1)%float /\ snd best' = 0%nat) \/
   ((snd best' < S a)%nat /\ fst best' = score (snd best') /\
    forall j, (j < snd best')%nat ->
      PrimFloat.ltb (score j) (fst best') = true \/ PrimFloat.is_nan (score j) = true)).
Proof.
  intros (Hnan & Hseen & Hbest). unfold round, searchStep. fold (score a).
  cbn [greater binary64].
  destruct (PrimFloat.ltb (fst best) (score a)) eqn:Hlt; cbn [fst snd].
  - destruct (f64_lt_not_nan _ _ Hlt) as [_ Hs].
    split; [exact Hs|]. split.
    + intros j Hj. destruct (Nat.eq_dec j a) as [->|Hne].
      * apply f64_lt_irrefl.
      * destruct (PrimFloat.ltb (score a) (score j)) eqn:Hj'; [|reflexivity].
        specialize (Hseen j ltac:(lia)).
        rewrite (f64_lt_trans _ _ _ Hlt Hj') in Hseen. discriminate.
    + right. split; [lia|]. split; [reflexivity|].
      intros j Hj.
      destruct (PrimFloat.is_nan (score j)) eqn:Hsj; [now right|]. left.
      destruct (f64_lt_cotrans _ (score j) _ Hlt Hsj) as [H|H]; [|exact H].
      rewrite (Hseen j Hj) in H. discriminate.
  - split; [exact Hnan|]. split.
    + intros j Hj. destruct (Nat.eq_dec j a) as [->|Hne]; [exact Hlt|].
      apply Hseen. lia.
    + destruct Hbest as [Hinit|(Ho & Hs & Hearlier)]; [left; exact Hinit|].
      right. split; [lia|]. split; assumption.
Qed.

Lemma search_invariant (n : nat) :
  forall (a : nat) (best : float * nat),
    (PrimFloat.is_nan (fst best) = false /\
     (forall j, (j < a)%nat -> PrimFloat.ltb (fst best) (score j) = false) /\
     ((fst best = (-1)%float /\ snd best = 0%nat) \/
      ((snd best < a)%nat /\ fst best = score (snd best) /\
       forall j, (j < snd best)%nat ->
         PrimFloat.ltb (score j) (fst best) = true
         \/ PrimFloat.is_nan (score j) = true))) ->
    let best' := fold_left round (seq a n) best in
    PrimFloat.is_nan (fst best') = false /\
    (forall j, (j < a + n)%nat -> PrimFloat.ltb (fst best') (score j) = false) /\
    ((fst best' = (-1)%float /\ snd best' = 0%nat) \/
     ((snd best' < a + n)%nat /\ fst best' = score (snd best') /\
      forall j, (j < snd best')%nat ->
        PrimFloat.ltb (score j) (fst best') = true
        \/ PrimFloat.is_nan (score j) = true)).
Proof.
  induction n as [|n IH]; intros a best H.
  - cbn [seq fold_left]. rewrite Nat.add_0_r. exact H.
  - cbn [seq fold_left]. rewrite Nat.add_succ_r, <- Nat.add_succ_l.
    apply IH. apply searchStep_invariant. exact H.
Qed.

End TieBreak.

(** C6.  In binary64, the arithmetic of JavaScript: when some window offset
    [o] achieves the maximal similarity score (its score is a number and no
    window scores higher), the offset [findBestAlignment] returns is a window
    offset that achieves the maximal score too, and it is at most [o]: of the
    offsets with the maximal score the smallest is returned. *)
Theorem findBestAlignment_earliest_best (userIntervals : list float)
    (quantumSteps : list QuantumStep) (windowSize : option nat) (o : nat) :
  let windowLength :=
    match windowSize with
    | Some (S w) => S w
    | _ => List.length userIntervals
    end in
  let score := fun j =>
    calculateSimilarity userIntervals
      (slice (extractIntervals quantumSteps) j (j + windowLength)) defaultMaxInterval in
  let r := SequenceAlignment.offset
             (findBestAlignment userIntervals quantumSteps windowSize) in
  (o + windowLength <= List.length quantumSteps)%nat ->
  PrimFloat.is_nan (score o) = false ->
  (forall j, (j + windowLength <= List.length quantumSteps)%nat ->
     PrimFloat.ltb (score o) (score j) = false) ->
  (r <= o)%nat /\
  (r + windowLength <= List.length quantumSteps)%nat /\
  PrimFloat.eqb (score r) (score o) = true /\
  (forall j, (j + windowLength <= List.length quantumSteps)%nat ->
     PrimFloat.ltb (score r) (score j) = false).
Proof.
  intros windowLength score r Ho Hnan Hmax.
  subst r score. cbv beta in *. unfold findBestAlignment. fold windowLength.
  cbn [SequenceAlignment.offset].
  assert (Hlen : List.length (extractIntervals (N := binary64) quantumSteps)
                 = List.length quantumSteps)
    by (unfold extractIntervals; apply length_map).
  rewrite Hlen. unfold windowOffsets.
  destruct (Nat.leb_spec windowLength (List.length quantumSteps)) as [Hle|Hgt]; [|lia].
  set (n := (List.length quantumSteps - windowLength + 1)%nat).
  destruct (search_invariant userIntervals (extractIntervals quantumSteps) windowLength
              n 0%nat (ofZ (-1), 0%nat)) as (Hbn & Hseen & Hbest).
  { cbn [fst snd]. split; [reflexivity|]. split; [intros j Hj; lia|].
    left. split; reflexivity. }
  cbn [Nat.add] in Hseen, Hbest.
  set (best := fold_left _ _ _) in *.
  destruct Hbest as [[Hinit _]|(Hr & Hs & Hearlier)].
  - specialize (Hseen o ltac:(lia)). rewrite Hinit in Hseen.
    pose proof (calculateSimilarity_above_minus_1 userIntervals
                  (slice (extractIntervals quantumSteps) o (o + windowLength))
                  defaultMaxInterval Hnan) as H.
    cbv zeta in H. congruence.
  - assert (Hro : (snd best <= o)%nat).
    { destruct (Nat.le_gt_cases (snd best) o) as [H|H]; [exact H|].
      destruct (Hearlier o H) as [Hlt|Hn]; [|congruence].
      rewrite Hs in Hlt. rewrite (Hmax (snd best)) in Hlt; [discriminate | lia]. }
    split; [exact Hro|]. split; [lia|]. split.
    + apply f64_eq_of_not_lt.
      * rewrite <- Hs. exact Hbn.
      * exact Hnan.
      * rewrite <- Hs. apply Hseen. lia.
      * apply Hmax. lia.
    + intros j Hj. rewrite <- Hs. apply Hseen. lia.
Qed.

(** One user interval against candidate steps whose first and third interval
    equal it: the windows at offsets 0 and 2 tie at the top, and 0 is
    returned. *)
Lemma findBestAlignment_earliest_best_witness :
  PrimFloat.eqb
    (calculateSimilarity [226623915%float]
       (slice (extractIntervals repeatedInterval) 0 1) defaultMaxInterval)
    (calculateSimilarity [226623915%float]
       (slice (extractIntervals repeatedInterval) 2 3) defaultMaxInterval) = true /\
  (SequenceAlignment.offset
     (findBestAlignment [226623915%float] repeatedInterval None) <= 2)%nat /\
  SequenceAlignment.offset
    (findBestAlignment [226623915%float] repeatedInterval None) = 0%nat.
Proof.
  split; [vm_compute; reflexivity|].
  split; [|vm_compute; reflexivity].
  apply (findBestAlignment_earliest_best [226623915%float] repeatedInterval None 2).
  - vm_compute. lia.
  - vm_compute. reflexivity.
  - intros j Hj. change (j + 1 <= 3)%nat in Hj.
    assert (Hcases : j = 0%nat \/ j = 1%nat \/ j = 2%nat) by lia.
    destruct Hcases as [-> | [-> | ->]]; vm_compute; reflexivity.
Defined.

(** ** NaN in the scorer *)

(** A binary64 value is NaN when its specification is. *)
Lemma is_nan_Prim2SF (a : float) :
  PrimFloat.is_nan a = true <-> Prim2SF a = S754_nan.
Proof.
  split.
  - intros H. apply not_false_iff_true in H. rewrite is_nan_keyOf in H.
    unfold keyOf in H. destruct (Prim2SF a) as [s|s| |s m e]; try reflexivity;
      exfalso; apply H; destruct s; discriminate.
  - intros H. apply not_false_iff_true. rewrite is_nan_keyOf. unfold keyOf.
    rewrite H. cbn. tauto.
Qed.

(** NaN is absorbing for the arithmetic of the scorer. *)
Lemma add_nan_r (a b : float) :
  PrimFloat.is_nan b = true -> PrimFloat.is_nan (a + b) = true.
Proof.
  rewrite !is_nan_Prim2SF, FloatAxioms.add_spec. intros ->.
  destruct (Prim2SF a) as [[]|[]| |[]]; reflexivity.
Qed.

Lemma add_nan_l (a b : float) :
  PrimFloat.is_nan a = true -> PrimFloat.is_nan (a + b) = true.
Proof.
  rewrite !is_nan_Prim2SF, FloatAxioms.add_spec. intros ->. reflexivity.
Qed.

Lemma sub_nan_r (a b : float) :
  PrimFloat.is_nan b = true -> PrimFloat.is_nan (a - b) = true.
Proof.
  rewrite !is_nan_Prim2SF, FloatAxioms.sub_spec. intros ->.
  destruct (Prim2SF a) as [[]|[]| |[]]; reflexivity.
Qed.

Lemma mul_nan_r (a b : float) :
  PrimFloat.is_nan b = true -> PrimFloat.is_nan (a * b) = true.
Proof.
  rewrite !is_nan_Prim2SF, FloatAxioms.mul_spec. intros ->.
  destruct (Prim2SF a) as [[]|[]| |[]]; reflexivity.
Qed.

Lemma div_nan_l (a b : float) :
  PrimFloat.is_nan a = true -> PrimFloat.is_nan (a / b) = true.
Proof.
  rewrite !is_nan_Prim2SF, FloatAxioms.div_spec. intros ->. reflexivity.
Qed.

Lemma abs_nan (a : float) :
  PrimFloat.is_nan a = true -> PrimFloat.is_nan (PrimFloat.abs a) = true.
Proof.
  rewrite !is_nan_Prim2SF, FloatAxioms.abs_spec. intros ->. reflexivity.
Qed.

Lemma f64_max_nan_r (a b : float) :
  PrimFloat.is_nan b = true -> PrimFloat.is_nan (f64_max a b) = true.
Proof. intros H. unfold f64_max. rewrite H, orb_true_r. reflexivity. Qed.

Lemma f64_min_nan_r (a b : float) :
  PrimFloat.is_nan b = true -> PrimFloat.is_nan (f64_min a b) = true.
Proof. intros H. unfold f64_min. rewrite H, orb_true_r. reflexivity. Qed.

Section PastTheCandidate.
Variable quantumIntervals : list float.

Let round (sum : float) (iu : nat * float) : float :=
  (sum + PrimFloat.abs (snd iu - item quantumIntervals (fst iu)))%float.

(** The sum of the errors: once NaN it stays NaN, and it becomes NaN at an
    index past the end of the candidate. *)
Lemma errorSum_nan_stays (l : list (nat * float)) :
  forall sum, PrimFloat.is_nan sum = true -> PrimFloat.is_nan (fold_left round l sum) = true.
Proof.
  induction l as [|iu l IH]; intros sum H; [exact H|].
  cbn [fold_left]. apply IH. unfold round. now apply add_nan_l.
Qed.

Lemma errorSum_nan_past_end (l : list (nat * float)) (i : nat) (u : float) :
  In (i, u) l -> (List.length quantumIntervals <= i)%nat ->
  forall sum, PrimFloat.is_nan (fold_left round l sum) = true.
Proof.
  intros Hin Hi. induction l as [|iu l IH]; intros sum; [destruct Hin|].
  cbn [fold_left]. destruct Hin as [->|Hin]; [|now apply IH].
  apply errorSum_nan_stays. unfold round. cbn [fst snd].
  apply add_nan_r, abs_nan, sub_nan_r.
  unfold item. rewrite nth_overflow by exact Hi. reflexivity.
Qed.

End PastTheCandidate.

Lemma In_combine_seq {A : Type} (l : list A) (d : A) (i : nat) :
  (i < List.length l)%nat -> In (i, nth i l d) (combine (seq 0 (List.length l)) l).
Proof.
  intros Hi.
  assert (H : nth i (combine (seq 0 (List.length l)) l) (0%nat, d) = (i, nth i l d)).
  { rewrite combine_nth by apply length_seq. now rewrite seq_nth. }
  rewrite <- H. apply nth_In. rewrite length_combine, length_seq. lia.
Qed.

(** A user sequence longer than a candidate that is not empty scores NaN. *)
Lemma calculateSimilarity_nan (userIntervals quantumIntervals : list float)
    (maxInterval : float) :
  (0 < List.length quantumIntervals < List.length userIntervals)%nat ->
  PrimFloat.is_nan (calculateSimilarity userIntervals quantumIntervals maxInterval) = true.
Proof.
  intros [Hq Hu]. unfold calculateSimilarity.
  rewrite Nat.min_r by lia.
  destruct (Nat.eqb_spec (List.length quantumIntervals) 0) as [H0|_]; [lia|].
  cbv zeta. unfold clamp01. cbn [Math_max Math_min num_add num_sub num_mul num_div binary64].
  apply f64_max_nan_r, f64_min_nan_r, add_nan_l, add_nan_r, mul_nan_r, f64_max_nan_r,
    sub_nan_r, div_nan_l, div_nan_l.
  unfold reduceIndexed.
  apply (errorSum_nan_past_end quantumIntervals _ (List.length quantumIntervals)
           (nth (List.length quantumIntervals) userIntervals 0%float)).
  - apply In_combine_seq. exact Hu.
  - apply Nat.le_refl.
Qed.

(** C3.  In binary64, the arithmetic of the code, [calculateSimilarity] breaks
    both halves of its specification, which are what its documentation
    promises: "Similarity score [0, 1] where 1 is perfect match".

    It does not always return a value of [[0, 1]].  For a user sequence longer
    than a candidate that is not empty the result is NaN, whatever the
    intervals: the mean error is summed over the whole user sequence and
    reads the candidate past its end, while the rest of the function stops at
    the common length.  So [1, 2] against [1] scores NaN.

    And a sequence compared against itself does not always score 1: the
    single interval [5] against itself scores 0.9, the correlation of a
    sequence without variance being taken as 0, and the empty sequence
    scores 0. *)
Theorem calculateSimilarity_breaks_bounds_and_self :
  (forall (userIntervals quantumIntervals : list float) (maxInterval : float),
     (0 < List.length quantumIntervals < List.length userIntervals)%nat ->
     PrimFloat.is_nan (calculateSimilarity userIntervals quantumIntervals maxInterval)
     = true) /\
  PrimFloat.is_nan
    (calculateSimilarity [1%float; 2%float] [1%float] defaultMaxInterval) = true /\
  PrimFloat.leb 0
    (calculateSimilarity [1%float; 2%float] [1%float] defaultMaxInterval) = false /\
  PrimFloat.leb
    (calculateSimilarity [1%float; 2%float] [1%float] defaultMaxInterval) 1 = false /\
  PrimFloat.eqb (calculateSimilarity [5%float] [5%float] defaultMaxInterval) 0.9 = true /\
  PrimFloat.eqb (calculateSimilarity [5%float] [5%float] defaultMaxInterval) 1 = false /\
  PrimFloat.eqb (calculateSimilarity ([] : list float) [] defaultMaxInterval) 0 = true.
Proof.
  split; [exact calculateSimilarity_nan|].
  repeat split; vm_compute; reflexivity.
Qed.

(** * Further properties *)

(** ** The hasher and the duration converter *)

Lemma substring_0_app (prefix rest : string) :
  substring 0 (String.length prefix) (prefix ++ rest) = prefix.
Proof.
  induction prefix as [|c prefix IH]; cbn.
  - destruct rest; reflexivity.
  - now rewrite IH.
Qed.

(** X1.  Only the leading 16 characters of the hash are read: whatever follows
    them does not change the duration (nor the failure). *)
Theorem hashToDuration_reads_prefix (prefix rest : string) (maxInterval : Z) :
  String.length prefix = 16%nat ->
  hashToDuration (prefix ++ rest) maxInterval = hashToDuration prefix maxInterval.
Proof.
  intros H. unfold hashToDuration.
  pose proof (substring_0_app prefix rest) as H1.
  pose proof (substring_0_app prefix EmptyString) as H2.
  rewrite H in H1, H2.
  assert (Hnil : (prefix ++ EmptyString)%string = prefix).
  { clear. induction prefix as [|c p IH]; cbn; [reflexivity | now rewrite IH]. }
  rewrite Hnil in H2. rewrite H1, H2. reflexivity.
Qed.

Lemma hashToDuration_reads_prefix_witness :
  hashToDuration (hash step1) MAX_INTERVAL_MS
  = hashToDuration "5feceb66ffc86f38" MAX_INTERVAL_MS.
Proof.
  apply (hashToDuration_reads_prefix "5feceb66ffc86f38"
           "d952786c6d696c79c2dbc239dd4e91b46729d73a27fb57e9" MAX_INTERVAL_MS).
  reflexivity.
Defined.

(** X2.  What [hashTimestamp] returns is the digest of the host written in
    hexadecimal digits, two for every byte; for a digest of 32 bytes, the size
    of SHA-256, it satisfies [isValidHash]. *)
Theorem hashTimestamp_format (crypto : Crypto) (t : Z) (h : string) :
  hashTimestamp crypto t = Ok h ->
  exists digest bytes,
    crypto = Some digest /\ digest (Number_toString t) = Some bytes /\
    allHex h = true /\
    String.length h = (2 * List.length bytes)%nat /\
    (List.length bytes = 32%nat -> isValidHash h = true).
Proof.
  unfold hashTimestamp. destruct crypto as [digest|]; [|discriminate].
  destruct (digest (Number_toString t)) as [bytes|] eqn:Hd; [|discriminate].
  intros [= <-]. exists digest, bytes.
  destruct (hexBytes_format bytes) as [Hh Hl].
  repeat split; try assumption.
  intros H32. unfold isValidHash. rewrite Hh, Hl, H32. reflexivity.
Qed.

Lemma hashTimestamp_format_witness :
  exists digest bytes,
    deployedCrypto = Some digest /\ digest (Number_toString 0) = Some bytes /\
    allHex (hash origin) = true /\
    String.length (hash origin) = (2 * List.length bytes)%nat /\
    (List.length bytes = 32%nat -> isValidHash (hash origin) = true).
Proof.
  apply (hashTimestamp_format deployedCrypto 0 (hash origin)).
  vm_compute. reflexivity.
Defined.

(** ** The step generator, continued *)

Section StepProperties.
Variable crypto : Crypto.


(** X4.  When a step is computed.  If the host digests the decimal form of the
    timestamp into at least one byte, [maxInterval] is a safe integer that is
    not negative and the timestamps up to [maxInterval] later are in the range
    of [Date], then [calculateNextStep] returns a step. *)
Theorem calculateNextStep_succeeds (digest : string -> option (list Byte.byte))
    (s : QuantumStep) (config : QuantumConfig) (bytes : list Byte.byte) :
  crypto = Some digest ->
  digest (Number_toString (timestamp s)) = Some bytes ->
  bytes <> [] ->
  0 <= maxInterval config <= MAX_SAFE_INTEGER ->
  - 8640000000000000 <= timestamp s ->
  timestamp s + maxInterval config <= 8640000000000000 ->
  exists s', calculateNextStep crypto s config = Ok s'.
Proof.
  intros Hc Hd Hne HM Hlo Hhi.
  destruct (calculateNextStep_returns crypto digest s config bytes Hc Hd Hne HM Hlo Hhi)
    as (s' & Hs' & _).
  now exists s'.
Qed.

End StepProperties.


Lemma calculateNextStep_succeeds_witness :
  exists s', calculateNextStep deployedCrypto step1 DEFAULT_CONFIG = Ok s'.
Proof.
  apply (calculateNextStep_succeeds deployedCrypto (lookupDigest sha256Table)
           step1 DEFAULT_CONFIG
           (bytesOfHex "9d7bfd82cb1d7194737fe8fd5700dd9bf5c8303e53ef0eb95b4e87268e96187b")).
  - reflexivity.
  - vm_compute. reflexivity.
  - vm_compute. discriminate.
  - vm_compute. split; discriminate.
  - vm_compute. discriminate.
  - vm_compute. discriminate.
Defined.

Section ForwardProperties.
Variable crypto : Crypto.
Variable config : QuantumConfig.

Let next := fun s => calculateNextStep crypto s config.

Lemma stepsForwardLoop_successors (count : nat) :
  forall current acc,
    stepsForwardLoop crypto config count current acc
    = (let* l := successors crypto config count current in Ok (acc ++ l)).
Proof.
  induction count as [|count IH]; intros current acc.
  - cbn. now rewrite app_nil_r.
  - cbn [stepsForwardLoop successors].
    destruct (calculateNextStep crypto current config) as [x| |]; cbn [bind];
      try reflexivity.
    rewrite IH.
    destruct (successors crypto config count x) as [l| |]; cbn [bind]; try reflexivity.
    now rewrite <- app_assoc.
Qed.

Lemma successors_chained (steps : list QuantumStep) :
  forall start,
    successors crypto config (List.length steps) start = Ok steps
    <-> chained crypto config start steps.
Proof.
  induction steps as [|x steps IH]; intros start.
  - cbn. tauto.
  - cbn [List.length successors chained]. split.
    + destruct (calculateNextStep crypto start config) as [y| |]; cbn [bind];
        try discriminate.
      destruct (successors crypto config (List.length steps) y) as [l| |] eqn:Hl;
        cbn [bind]; try discriminate.
      intros [= <- <-]. split; [reflexivity|]. now apply IH.
    + intros [Hx Hc]. rewrite Hx. cbn [bind].
      apply IH in Hc. rewrite Hc. reflexivity.
Qed.

(** X5.  [calculateStepsForward] returns [steps] exactly when they are [count]
    steps, each the next step of the one before it, the first the next step of
    [startStep]. *)
Theorem calculateStepsForward_chained (startStep : QuantumStep) (count : nat)
    (steps : list QuantumStep) :
  calculateStepsForward crypto startStep count config = Ok steps
  <-> List.length steps = count /\ chained crypto config startStep steps.
Proof.
  unfold calculateStepsForward. rewrite stepsForwardLoop_successors. split.
  - destruct (successors crypto config count startStep) as [l| |] eqn:Hl;
      cbn [bind app]; try discriminate.
    intros [= <-]. pose proof (successors_length _ _ _ _ _ Hl) as Hlen.
    split; [exact Hlen|]. apply successors_chained. now rewrite Hlen.
  - intros [<- Hc]. apply successors_chained in Hc. now rewrite Hc.
Qed.



End ForwardProperties.


Section ConfigProperties.
Variable crypto : Crypto.
Variables M t1 t2 : Z.

Let c1 := {| maxInterval := M; startTimestamp := t1 |}.
Let c2 := {| maxInterval := M; startTimestamp := t2 |}.

Lemma calculateNextStep_config (s : QuantumStep) :
  calculateNextStep crypto s c1 = calculateNextStep crypto s c2.
Proof. reflexivity. Qed.

Lemma stepsForwardLoop_config (count : nat) :
  forall current acc,
    stepsForwardLoop crypto c1 count current acc
    = stepsForwardLoop crypto c2 count current acc.
Proof.
  induction count as [|count IH]; intros current acc; [reflexivity|].
  cbn [stepsForwardLoop]. rewrite calculateNextStep_config.
  destruct (calculateNextStep crypto current c2); cbn [bind]; [apply IH | | ]; reflexivity.
Qed.

Lemma stepsUntilLoop_config (target : Z) (fuel : nat) :
  forall current acc,
    stepsUntilLoop crypto target c1 fuel current acc
    = stepsUntilLoop crypto target c2 fuel current acc.
Proof.
  induction fuel as [|fuel IH]; intros current acc; [reflexivity|].
  cbn [stepsUntilLoop]. rewrite calculateNextStep_config.
  destruct (timestamp current <? target); [|reflexivity].
  destruct (calculateNextStep crypto current c2); cbn [bind]; try reflexivity.
  destruct (_ >? _); [reflexivity | apply IH].
Qed.

Lemma nearLoop_config (target : Z) (fuel : nat) :
  forall current,
    nearLoop crypto target c1 fuel current = nearLoop crypto target c2 fuel current.
Proof.
  induction fuel as [|fuel IH]; intros current; [reflexivity|].
  cbn [nearLoop]. rewrite calculateNextStep_config.
  destruct (timestamp current <? target); [|reflexivity].
  destruct (calculateNextStep crypto current c2); cbn [bind]; try reflexivity.
  destruct (_ >? _); [reflexivity | apply IH].
Qed.

Lemma rangeLoop_config (target : Z) (fuel : nat) :
  forall current acc,
    rangeLoop crypto target c1 fuel current acc
    = rangeLoop crypto target c2 fuel current acc.
Proof.
  induction fuel as [|fuel IH]; intros current acc; [reflexivity|].
  cbn [rangeLoop]. rewrite calculateNextStep_config.
  destruct (timestamp current <? target); [|reflexivity].
  destruct (calculateNextStep crypto current c2); cbn [bind]; try reflexivity.
  apply IH.
Qed.

Lemma nextLoop_config (now : Z) (fuel : nat) :
  forall current,
    nextLoop crypto now c1 fuel current = nextLoop crypto now c2 fuel current.
Proof.
  induction fuel as [|fuel IH]; intros current; [reflexivity|].
  cbn [nextLoop]. rewrite calculateNextStep_config.
  destruct (timestamp current <=? now); [|reflexivity].
  destruct (calculateNextStep crypto current c2); cbn [bind]; try reflexivity.
  apply IH.
Qed.

(** X7.  The field [startTimestamp] of the configuration is never read: two
    configurations with the same [maxInterval] give the same results in every
    function of the step calculator.  The chain always starts at the step
    [getInitialStep] returns, at timestamp 0. *)
Theorem startTimestamp_never_read :
  (forall s, calculateNextStep crypto s c1 = calculateNextStep crypto s c2) /\
  (forall s count,
     calculateStepsForward crypto s count c1 = calculateStepsForward crypto s count c2) /\
  (forall s target,
     calculateStepsUntil crypto s target c1 = calculateStepsUntil crypto s target c2) /\
  (forall fuel target,
     findStepNearTimestamp crypto fuel target c1
     = findStepNearTimestamp crypto fuel target c2) /\
  (forall fuel rangeStart rangeEnd,
     calculateStepsInRange crypto fuel rangeStart rangeEnd c1
     = calculateStepsInRange crypto fuel rangeStart rangeEnd c2) /\
  (forall fuel now, getCurrentStep crypto fuel now c1 = getCurrentStep crypto fuel now c2) /\
  (forall fuel now, getNextStep crypto fuel now c1 = getNextStep crypto fuel now c2).
Proof.
  assert (Hnear : forall fuel target,
             findStepNearTimestamp crypto fuel target c1
             = findStepNearTimestamp crypto fuel target c2).
  { intros fuel target. unfold findStepNearTimestamp.
    destruct (getInitialStep crypto); cbn [bind]; try reflexivity.
    apply nearLoop_config. }
  split; [reflexivity|]. split; [|split; [|split; [|split; [|split]]]].
  - intros s count. apply stepsForwardLoop_config.
  - intros s target. apply stepsUntilLoop_config.
  - exact Hnear.
  - intros fuel a b. unfold calculateStepsInRange. rewrite Hnear.
    destruct (findStepNearTimestamp crypto fuel a c2); cbn [bind]; try reflexivity.
    apply rangeLoop_config.
  - intros fuel now. apply Hnear.
  - intros fuel now. unfold getNextStep.
    destruct (getInitialStep crypto); cbn [bind]; try reflexivity.
    apply nextLoop_config.
Qed.

End ConfigProperties.

Section NextStepProperties.
Variable crypto : Crypto.
Variable config : QuantumConfig.

Let next := fun s => calculateNextStep crypto s config.
Let after := stepAfter crypto config.

Lemma nextLoop_passed (now : Z) (fuel : nat) (current : QuantumStep) :
  now < timestamp current -> nextLoop crypto now config fuel current = Ok current.
Proof.
  intros H. destruct fuel; cbn;
    destruct (Z.leb_spec (timestamp current) now); (lia || reflexivity).
Qed.

(** The loop of [getNextStep], started [j] steps before the last step that
    does not lie after [now]. *)
Lemma nextLoop_spec (now : Z) (j : nat) :
  forall (fuel : nat) (current sAfter : QuantumStep),
    (forall i, (i <= j)%nat ->
       exists s, after i current = Ok s /\ timestamp s <= now) ->
    after (S j) current = Ok sAfter ->
    now < timestamp sAfter ->
    (j < fuel)%nat ->
    nextLoop crypto now config fuel current = Ok sAfter.
Proof.
  induction j as [|j IH]; intros fuel current sAfter Hbelow Ha Hgt Hfuel.
  - destruct (Hbelow 0%nat (Nat.le_refl _)) as (s & [= <-] & Hle).
    change (after 1 current) with (let* s := next current in Ok s) in Ha.
    destruct (next current) as [n| |] eqn:Hn; cbn [bind] in Ha; try discriminate.
    injection Ha as ->.
    destruct fuel as [|fuel]; [lia|].
    cbn [nextLoop]. fold (next current). rewrite Hn. cbn [bind].
    destruct (Z.leb_spec (timestamp current) now); [|lia].
    now apply nextLoop_passed.
  - destruct (Hbelow 0%nat (Nat.le_0_l _)) as (s & [= <-] & Hle).
    change (after (S (S j)) current)
      with (let* s := next current in after (S j) s) in Ha.
    destruct (next current) as [n| |] eqn:Hn; cbn [bind] in Ha; try discriminate.
    destruct fuel as [|fuel]; [lia|].
    cbn [nextLoop]. fold (next current). rewrite Hn. cbn [bind].
    destruct (Z.leb_spec (timestamp current) now); [|lia].
    apply IH; try assumption; try lia.
    intros i Hi. destruct (Hbelow (S i) ltac:(lia)) as (s & Hs & Hsle).
    change (after (S i) current) with (let* s := next current in after i s) in Hs.
    rewrite Hn in Hs. cbn [bind] in Hs. eauto.
Qed.

(** X8.  [getNextStep] walks the chain from the origin and returns the first
    step whose timestamp lies after [now]: if the steps 0 to [j] of the chain
    do not lie after [now] and step [j + 1] does, step [j + 1] is returned.
    The walk takes [j + 1] rounds. *)
Theorem getNextStep_first_after (now : Z) (j fuel : nat) (sAfter : QuantumStep) :
  (forall i, (i <= j)%nat ->
     exists s, chainStep crypto config i = Ok s /\ timestamp s <= now) ->
  chainStep crypto config (S j) = Ok sAfter ->
  now < timestamp sAfter ->
  (j < fuel)%nat ->
  getNextStep crypto fuel now config = Ok sAfter.
Proof.
  intros Hbelow Ha Hgt Hfuel. unfold getNextStep. unfold chainStep in *.
  destruct (getInitialStep crypto) as [o| |]; cbn [bind] in *; try discriminate.
  now apply (nextLoop_spec now j fuel o sAfter).
Qed.

(** X9.  Before the epoch no step is generated: for a target at or before
    timestamp 0 [findStepNearTimestamp] returns the initial step, for a
    negative [now] so does [getNextStep], and a range that ends at or before
    timestamp 0 holds the initial step alone.  In the model no fuel is used. *)
Theorem initial_step_before_epoch (fuel : nat) :
  (forall target, target <= 0 ->
     findStepNearTimestamp crypto fuel target config = getInitialStep crypto) /\
  (forall now, now < 0 -> getNextStep crypto fuel now config = getInitialStep crypto) /\
  (forall rangeStart rangeEnd, rangeStart <= 0 -> rangeEnd <= 0 ->
     calculateStepsInRange crypto fuel rangeStart rangeEnd config
     = (let* o := getInitialStep crypto in Ok [o])).
Proof.
  assert (Hnear : forall target, target <= 0 ->
            findStepNearTimestamp crypto fuel target config = getInitialStep crypto).
  { intros target Ht. unfold findStepNearTimestamp.
    destruct (getInitialStep crypto) as [o| |] eqn:Ho; cbn [bind]; try reflexivity.
    apply (getInitialStep_inv crypto) in Ho. apply nearLoop_reached. lia. }
  split; [exact Hnear|]. split.
  - intros now Hn. unfold getNextStep.
    destruct (getInitialStep crypto) as [o| |] eqn:Ho; cbn [bind]; try reflexivity.
    apply (getInitialStep_inv crypto) in Ho. apply nextLoop_passed. lia.
  - intros a b Ha Hb. unfold calculateStepsInRange. rewrite (Hnear a Ha).
    destruct (getInitialStep crypto) as [o| |] eqn:Ho; cbn [bind]; try reflexivity.
    apply (getInitialStep_inv crypto) in Ho.
    destruct fuel; cbn; destruct (Z.ltb_spec (timestamp o) b); (lia || reflexivity).
Qed.

End NextStepProperties.

Lemma getNextStep_first_after_witness :
  getNextStep deployedCrypto 5 226623915 DEFAULT_CONFIG = Ok step2.
Proof.
  apply (getNextStep_first_after deployedCrypto DEFAULT_CONFIG 226623915 1 5 step2).
  - intros i Hi. assert (Hcases : i = 0%nat \/ i = 1%nat) by lia.
    destruct Hcases as [-> | ->]; [exists origin | exists step1];
      (split; [vm_compute; reflexivity | vm_compute; discriminate]).
  - vm_compute. reflexivity.
  - reflexivity.
  - lia.
Defined.

Section StuckChain.
Variable crypto : Crypto.
Variable config : QuantumConfig.
Variables o s1 : QuantumStep.

Hypothesis initial : getInitialStep crypto = Ok o.
Hypothesis firstStuck : calculateNextStep crypto o config = Ok s1.
Hypothesis stuck : interval s1 = 0.

(** Every step at timestamp 0 is followed by a step at timestamp 0. *)
Lemma stuck_next (s : QuantumStep) :
  timestamp s = 0 ->
  exists s', calculateNextStep crypto s config = Ok s' /\ timestamp s' = 0.
Proof.
  intros Hs. destruct (getInitialStep_inv crypto o initial) as (_ & Ho & _).
  destruct (calculateNextStep_inv crypto o s1 config firstStuck) as (Hh & Hd & Hiso & _ & Ht).
  rewrite Ho, stuck in Ht. cbn in Ht. rewrite Ht in Hiso. rewrite Ho in Hh.
  unfold calculateNextStep. rewrite Hs, Hh. cbn [bind]. rewrite Hd, stuck. cbn [bind].
  change (0 + 0) with 0. rewrite Hiso. cbn [bind]. eexists. split; reflexivity.
Qed.

Lemma nearLoop_stuck (target : Z) (fuel : nat) :
  0 < target ->
  forall s, timestamp s = 0 -> nearLoop crypto target config fuel s = Timeout.
Proof.
  intros Ht. induction fuel as [|fuel IH]; intros s Hs; cbn [nearLoop].
  - rewrite Hs. destruct (Z.ltb_spec 0 target); [reflexivity | lia].
  - destruct (stuck_next s Hs) as (s' & Hn & Hs'). rewrite Hn. cbn [bind].
    rewrite Hs, Hs'. destruct (Z.ltb_spec 0 target); [|lia].
    destruct (Z.gtb_spec 0 target); [lia|]. now apply IH.
Qed.

Lemma nextLoop_stuck (now : Z) (fuel : nat) :
  0 <= now ->
  forall s, timestamp s = 0 -> nextLoop crypto now config fuel s = Timeout.
Proof.
  intros Ht. induction fuel as [|fuel IH]; intros s Hs; cbn [nextLoop].
  - rewrite Hs. destruct (Z.leb_spec 0 now); [reflexivity | lia].
  - destruct (stuck_next s Hs) as (s' & Hn & Hs'). rewrite Hn. cbn [bind].
    rewrite Hs. destruct (Z.leb_spec 0 now); [|lia]. now apply IH.
Qed.

Lemma stepsUntilLoop_stuck (target : Z) (fuel : nat) :
  0 < target ->
  forall s acc,
    timestamp s = 0 ->
    Z.of_nat (List.length acc) <= 1000000 ->
    1000001 <= Z.of_nat (List.length acc) + Z.of_nat fuel ->
    stepsUntilLoop crypto target config fuel s acc = Throw StepLimitExceeded.
Proof.
  intros Ht. induction fuel as [|fuel IH]; intros s acc Hs Hacc Hfuel; [lia|].
  rewrite stepsUntilLoop_unfold.
  destruct (stuck_next s Hs) as (s' & Hn & Hs'). rewrite Hn. cbn [bind].
  rewrite Hs. destruct (Z.ltb_spec 0 target); [|lia].
  destruct (Z.gtb_spec (Z.of_nat (List.length (acc ++ [s']))) 1000000) as [Hgt|Hle];
    [reflexivity|].
  apply IH; [exact Hs' | exact Hle|].
  rewrite length_app. cbn [List.length]. lia.
Qed.

(** X10.  A chain that does not leave the origin.  When the step after the
    initial step has interval 0, every later step lies at timestamp 0 as
    well.  Then the walks to a target after the epoch never end: for every
    amount of fuel the models of [findStepNearTimestamp], [getCurrentStep],
    [getNextStep] and [calculateStepsInRange] run out of it; only
    [calculateStepsUntil], which counts its steps, ends, with the step-limit
    error. *)
Theorem stuck_chain_walks (target : Z) :
  0 < target ->
  (forall fuel, findStepNearTimestamp crypto fuel target config = Timeout) /\
  (forall fuel, getCurrentStep crypto fuel target config = Timeout) /\
  (forall fuel, getNextStep crypto fuel target config = Timeout) /\
  (forall fuel rangeEnd,
     calculateStepsInRange crypto fuel target rangeEnd config = Timeout) /\
  calculateStepsUntil crypto o target config = Throw StepLimitExceeded.
Proof.
  intros Ht. destruct (getInitialStep_inv crypto o initial) as (_ & Ho & _).
  assert (Hnear : forall fuel, findStepNearTimestamp crypto fuel target config = Timeout).
  { intros fuel. unfold findStepNearTimestamp. rewrite initial. cbn [bind].
    now apply nearLoop_stuck. }
  split; [exact Hnear|]. split; [exact Hnear|]. split; [|split].
  - intros fuel. unfold getNextStep. rewrite initial. cbn [bind].
    apply nextLoop_stuck; [lia | exact Ho].
  - intros fuel rangeEnd. unfold calculateStepsInRange. rewrite Hnear. reflexivity.
  - unfold calculateStepsUntil. apply stepsUntilLoop_stuck; try assumption.
    + cbn [List.length]. lia.
    + cbn [List.length]. rewrite Z2Nat.id; lia.
Qed.

End StuckChain.

Lemma stuck_chain_walks_witness :
  (forall fuel, findStepNearTimestamp deployedCrypto fuel 1 oneMillisecondConfig = Timeout) /\
  (forall fuel, getCurrentStep deployedCrypto fuel 1 oneMillisecondConfig = Timeout) /\
  (forall fuel, getNextStep deployedCrypto fuel 1 oneMillisecondConfig = Timeout) /\
  (forall fuel rangeEnd,
     calculateStepsInRange deployedCrypto fuel 1 rangeEnd oneMillisecondConfig = Timeout) /\
  calculateStepsUntil deployedCrypto origin 1 oneMillisecondConfig
  = Throw StepLimitExceeded.
Proof.
  apply (stuck_chain_walks deployedCrypto oneMillisecondConfig origin
           {| index := 1; timestamp := 0; interval := 0; hash := hash origin;
              isoString := isoString origin |}).
  - vm_compute. reflexivity.
  - vm_compute. reflexivity.
  - reflexivity.
  - lia.
Defined.

Section RangeProperties.
Variable crypto : Crypto.
Variable config : QuantumConfig.
Variable endTimestamp : Z.

Lemma rangeLoop_reached (fuel : nat) (current : QuantumStep) (steps : list QuantumStep) :
  endTimestamp <= timestamp current ->
  rangeLoop crypto endTimestamp config fuel current steps = Ok steps.
Proof.
  intros H. destruct fuel; cbn;
    destruct (Z.ltb_spec (timestamp current) endTimestamp); (lia || reflexivity).
Qed.

Lemma rangeLoop_inv (fuel : nat) :
  forall current acc steps,
    rangeLoop crypto endTimestamp config fuel current acc = Ok steps ->
    exists new,
      steps = acc ++ new /\
      chained crypto config current new /\
      Forall (fun s => timestamp s <= endTimestamp) new /\
      allBefore endTimestamp (removelast (current :: new)) /\
      (endTimestamp <= timestamp (last new current)
       \/ exists s, calculateNextStep crypto (last new current) config = Ok s
                    /\ endTimestamp < timestamp s).
Proof.
  induction fuel as [|fuel IH]; intros current acc steps H.
  - cbn in H.
    destruct (Z.ltb_spec (timestamp current) endTimestamp) as [|H0]; [discriminate|].
    injection H as <-. exists []. rewrite app_nil_r.
    split; [reflexivity|]. split; [exact I|]. split; [constructor|].
    split; [constructor|]. left. exact H0.
  - cbn [rangeLoop] in H.
    destruct (Z.ltb_spec (timestamp current) endTimestamp) as [Hlt|Hge].
    + destruct (calculateNextStep crypto current config) as [x| |] eqn:Hx;
        cbn [bind] in H; try discriminate.
      destruct (Z.leb_spec (timestamp x) endTimestamp) as [Hle|Hgt].
      * apply IH in H. destruct H as (new & -> & Hc & Hall & Hb & Hend).
        exists (x :: new). rewrite <- app_assoc. cbn [app].
        split; [reflexivity|]. split; [now split|]. split; [now constructor|].
        split.
        -- change (removelast (current :: x :: new))
             with (current :: removelast (x :: new)).
           constructor; assumption.
        -- rewrite last_cons_default. exact Hend.
      * rewrite rangeLoop_reached in H by lia. injection H as <-.
        exists []. rewrite app_nil_r.
        split; [reflexivity|]. split; [exact I|]. split; [constructor|].
        split; [constructor|]. right. exists x. cbn [last]. now split.
    + injection H as <-. exists []. rewrite app_nil_r.
      split; [reflexivity|]. split; [exact I|]. split; [constructor|].
      split; [constructor|]. left. exact Hge.
Qed.

(** X11.  The steps [calculateStepsInRange] returns: the step
    [findStepNearTimestamp] finds for the start of the range, followed by its
    successive next steps as long as they lie at or before the end of the
    range.  Every step but the last lies before the end; the list stops at a
    step at or past the end, or at the last step whose next step is past
    it. *)
Theorem calculateStepsInRange_shape (fuel : nat) (startTimestamp : Z)
    (steps : list QuantumStep) :
  calculateStepsInRange crypto fuel startTimestamp endTimestamp config = Ok steps ->
  exists firstStep rest,
    steps = firstStep :: rest /\
    findStepNearTimestamp crypto fuel startTimestamp config = Ok firstStep /\
    chained crypto config firstStep rest /\
    Forall (fun s => timestamp s <= endTimestamp) rest /\
    allBefore endTimestamp (removelast steps) /\
    (endTimestamp <= timestamp (last rest firstStep)
     \/ exists s, calculateNextStep crypto (last rest firstStep) config = Ok s
                  /\ endTimestamp < timestamp s).
Proof.
  unfold calculateStepsInRange.
  destruct (findStepNearTimestamp crypto fuel startTimestamp config) as [f| |];
    cbn [bind]; try discriminate.
  intros H. apply rangeLoop_inv in H. destruct H as (new & -> & Hc & Hall & Hb & Hend).
  exists f, new. cbn [app]. repeat split; assumption.
Qed.

End RangeProperties.

Lemma calculateStepsInRange_shape_witness :
  exists firstStep rest,
    [origin; step1; step2] = firstStep :: rest /\
    findStepNearTimestamp deployedCrypto 5 0 DEFAULT_CONFIG = Ok firstStep /\
    chained deployedCrypto DEFAULT_CONFIG firstStep rest /\
    Forall (fun s => timestamp s <= 600000000) rest /\
    allBefore 600000000 (removelast [origin; step1; step2]) /\
    (600000000 <= timestamp (last rest firstStep)
     \/ exists s, calculateNextStep deployedCrypto (last rest firstStep) DEFAULT_CONFIG
                  = Ok s
                  /\ 600000000 < timestamp s).
Proof.
  apply (calculateStepsInRange_shape deployedCrypto DEFAULT_CONFIG 600000000 5 0).
  vm_compute. reflexivity.
Defined.

Section PreviousSteps.
Variable crypto : Crypto.

Lemma previousLoop_successors (startIndex : Z) (rounds : nat) :
  forall i current acc,
    previousLoop crypto startIndex rounds i current acc
    = (let* l := successors crypto DEFAULT_CONFIG rounds current in
       Ok (acc ++ skipn (Z.to_nat (startIndex - i)) l)).
Proof.
  induction rounds as [|rounds IH]; intros i current acc.
  - cbn. rewrite skipn_nil, app_nil_r. reflexivity.
  - cbn [previousLoop successors].
    destruct (calculateNextStep crypto current DEFAULT_CONFIG) as [x| |]; cbn [bind];
      try reflexivity.
    rewrite IH.
    destruct (successors crypto DEFAULT_CONFIG rounds x) as [l| |]; cbn [bind];
      try reflexivity.
    f_equal. destruct (Z.geb_spec i startIndex) as [Hge|Hlt].
    + replace (Z.to_nat (startIndex - i)) with 0%nat by lia.
      replace (Z.to_nat (startIndex - (i + 1))) with 0%nat by lia.
      cbn [skipn]. now rewrite <- app_assoc.
    + replace (Z.to_nat (startIndex - i)) with (S (Z.to_nat (startIndex - (i + 1))))
        by lia.
      reflexivity.
Qed.

Lemma successors_nth (n : nat) :
  forall start l d i,
    successors crypto DEFAULT_CONFIG n start = Ok l ->
    (i < n)%nat ->
    stepAfter crypto DEFAULT_CONFIG (S i) start = Ok (nth i l d).
Proof.
  induction n as [|n IH]; intros start l d i Hs Hi; [lia|].
  apply successors_S_inv in Hs. destruct Hs as (x & l' & -> & Hx & Hs).
  cbn [stepAfter]. rewrite Hx. cbn [bind].
  destruct i as [|i]; [reflexivity|].
  cbn [nth]. apply (IH x l' d i Hs). lia.
Qed.

Lemma stepAfter_index (n : nat) :
  forall start s,
    stepAfter crypto DEFAULT_CONFIG n start = Ok s -> index s = index start + Z.of_nat n.
Proof.
  induction n as [|n IH]; intros start s H.
  - injection H as <-. lia.
  - cbn [stepAfter] in H.
    destruct (calculateNextStep crypto start DEFAULT_CONFIG) as [x| |] eqn:Hx;
      cbn [bind] in H; try discriminate.
    apply IH in H. apply (calculateNextStep_inv crypto) in Hx. lia.
Qed.

(** X12.  [getPreviousSteps] looks at the index of [targetStep] alone and
    walks the chain of the default configuration from the origin.  For a
    count that is not negative it returns the steps of the chain at the
    indices [targetStep.index], [targetStep.index - 1], ... in this order:
    [count] of them, or all of the steps 1 to [targetStep.index] when these
    are fewer.  The first step returned is the step of the chain at the
    index of [targetStep] itself. *)
Theorem getPreviousSteps_indices (targetStep : QuantumStep) (count : Z)
    (steps : list QuantumStep) :
  getPreviousSteps crypto targetStep count = Ok steps ->
  0 <= count ->
  List.length steps = Z.to_nat (Z.min count (Z.max 0 (index targetStep))) /\
  forall i, (i < List.length steps)%nat ->
    chainStep crypto DEFAULT_CONFIG (Z.to_nat (index targetStep) - i)
    = Ok (nth i steps targetStep) /\
    index (nth i steps targetStep) = index targetStep - Z.of_nat i.
Proof.
  unfold getPreviousSteps. intros H Hcount.
  destruct (Z.eqb_spec (index targetStep) 0) as [H0|Hne].
  { injection H as <-. rewrite H0. cbn [List.length]. split; [lia|].
    intros i Hi. cbn in Hi. lia. }
  unfold chainStep.
  destruct (getInitialStep crypto) as [o| |] eqn:Ho; cbn [bind] in *; try discriminate.
  rewrite previousLoop_successors in H.
  set (n := Z.to_nat (index targetStep)) in *.
  destruct (successors crypto DEFAULT_CONFIG n o) as [l| |] eqn:Hl; cbn [bind app] in H;
    try discriminate.
  injection H as <-.
  pose proof (successors_length _ _ _ _ _ Hl) as Hlen.
  set (k := Z.to_nat (Z.max 0 (index targetStep - count) - 0)).
  assert (Hk : (k <= n)%nat) by lia.
  rewrite length_rev, length_skipn, Hlen.
  split; [lia|].
  intros i Hi. rewrite rev_nth by (rewrite length_skipn; lia).
  rewrite length_skipn, Hlen, nth_skipn.
  replace (k + (n - k - S i))%nat with (n - S i)%nat by lia.
  assert (Hstep : stepAfter crypto DEFAULT_CONFIG (n - i) o
                  = Ok (nth (n - S i) l targetStep)).
  { replace (n - i)%nat with (S (n - S i)) by lia.
    apply (successors_nth n); [exact Hl | lia]. }
  split; [exact Hstep|].
  apply stepAfter_index in Hstep. apply (getInitialStep_inv crypto) in Ho. lia.
Qed.

End PreviousSteps.

Lemma getPreviousSteps_indices_witness :
  List.length [step3; step2] = Z.to_nat (Z.min 2 (Z.max 0 (index step3))) /\
  forall i, (i < List.length [step3; step2])%nat ->
    chainStep deployedCrypto DEFAULT_CONFIG (Z.to_nat (index step3) - i)
    = Ok (nth i [step3; step2] step3) /\
    index (nth i [step3; step2] step3) = index step3 - Z.of_nat i.
Proof.
  apply (getPreviousSteps_indices deployedCrypto step3 2 [step3; step2]).
  - vm_compute. reflexivity.
  - lia.
Defined.

(** ** The step cache, continued *)

Section JSMapProperties.
Context {V : Type}.

Lemma Map_get_In (m : JSMap V) (k : Z) (v : V) : Map_get m k = Some v -> In (k, v) m.
Proof.
  induction m as [|[k0 v0] m IH]; cbn [Map_get]; [discriminate|].
  destruct (Z.eqb_spec k0 k) as [->|_].
  - intros [= ->]. now left.
  - intros H. right. now apply IH.
Qed.

Lemma Map_get_None (m : JSMap V) (k : Z) : Map_get m k = None <-> ~ In k (map fst m).
Proof.
  induction m as [|[k0 v0] m IH]; cbn [Map_get map fst In]; [tauto|].
  destruct (Z.eqb_spec k0 k) as [->|Hne].
  - split; [discriminate | tauto].
  - rewrite IH. tauto.
Qed.

Lemma In_Map_get (m : JSMap V) (k : Z) (v : V) :
  NoDup (map fst m) -> In (k, v) m -> Map_get m k = Some v.
Proof.
  induction m as [|[k0 v0] m IH]; intros Hnd Hin; [destruct Hin|].
  cbn [map fst] in Hnd. inversion Hnd as [|? ? Hnot Hnd']; subst.
  cbn [Map_get]. destruct Hin as [[= -> ->]|Hin].
  - now rewrite Z.eqb_refl.
  - destruct (Z.eqb_spec k0 k) as [->|_]; [|now apply IH].
    exfalso. apply Hnot. apply (in_map fst) in Hin. exact Hin.
Qed.

Lemma Map_set_keys (m : JSMap V) (k : Z) (v : V) :
  map fst (Map_set m k v)
  = match Map_get m k with
    | Some _ => map fst m
    | None => map fst m ++ [k]
    end.
Proof.
  induction m as [|[k0 v0] m IH]; cbn [Map_set Map_get map fst app]; [reflexivity|].
  destruct (Z.eqb_spec k0 k) as [->|Hne]; [reflexivity|].
  cbn [map fst]. rewrite IH. destruct (Map_get m k); reflexivity.
Qed.

Lemma Map_set_NoDup (m : JSMap V) (k : Z) (v : V) :
  NoDup (map fst m) -> NoDup (map fst (Map_set m k v)).
Proof.
  intros H. rewrite Map_set_keys. destruct (Map_get m k) eqn:Hk; [exact H|].
  apply Map_get_None in Hk.
  apply NoDup_app; [exact H | repeat constructor; intros [] |].
  intros a Ha [<-|[]]. contradiction.
Qed.

Lemma Map_set_In (m : JSMap V) (k : Z) (v : V) (k' : Z) (v' : V) :
  In (k', v') (Map_set m k v) -> (k' = k /\ v' = v) \/ In (k', v') m.
Proof.
  induction m as [|[k0 v0] m IH]; cbn [Map_set].
  - intros [[= <- <-]|[]]. now left.
  - destruct (Z.eqb_spec k0 k) as [->|Hne].
    + intros [[= <- <-]|H]; [now left | right; now right].
    + intros [H|H]; [right; now left|].
      destruct (IH H) as [?|?]; [now left | right; now right].
Qed.

Lemma Map_set_size (m : JSMap V) (k : Z) (v : V) :
  Map_size (Map_set m k v)
  = match Map_get m k with
    | Some _ => Map_size m
    | None => Map_size m + 1
    end.
Proof.
  unfold Map_size.
  rewrite <- (length_map fst (Map_set m k v)), Map_set_keys, <- (length_map fst m).
  destruct (Map_get m k); [reflexivity|].
  rewrite length_app. cbn [List.length]. lia.
Qed.

End JSMapProperties.

Lemma evicted_tail (c : StepCache) :
  evicted c = cache c \/ exists k0 e0, cache c = (k0, e0) :: evicted c.
Proof.
  unfold evicted. destruct (Map_size (cache c) >=? maxSize c); [|now left].
  destruct (cache c) as [|[k0 e0] m]; [now left|]. right.
  cbn [Map_firstKey Map_delete]. rewrite Z.eqb_refl. now exists k0, e0.
Qed.

Lemma StepCache_set_cache (c : StepCache) (step : QuantumStep) (now : Z) :
  cache (StepCache_set c step now)
  = Map_set (evicted c) (index step) {| entry_step := step; entry_timestamp := now |}.
Proof. reflexivity. Qed.

Lemma StepCache_set_wellKeyed (c : StepCache) (step : QuantumStep) (now : Z) :
  wellKeyed c -> wellKeyed (StepCache_set c step now).
Proof.
  intros [Hnd Hk]. unfold wellKeyed. rewrite StepCache_set_cache.
  assert (He : NoDup (map fst (evicted c))
               /\ forall k e, In (k, e) (evicted c) -> In (k, e) (cache c)).
  { destruct (evicted_tail c) as [->|(k0 & e0 & Hc)]; [now split|].
    rewrite Hc in Hnd |- *. cbn [map fst] in Hnd. inversion Hnd; subst.
    split; [assumption | intros k e H; now right]. }
  destruct He as [Hnd' Hsub]. split.
  - now apply Map_set_NoDup.
  - intros k e Hin. apply Map_set_In in Hin. destruct Hin as [[-> ->]|Hin].
    + reflexivity.
    + apply Hk, Hsub, Hin.
Qed.

Lemma runOps_wellKeyed (ops : list cacheOp) :
  forall c, wellKeyed c -> wellKeyed (runOps c ops).
Proof.
  induction ops as [|op ops IH]; intros c Hc; [exact Hc|].
  cbn [runOps fold_left]. apply IH. destruct op as [step now|]; cbn [applyOp].
  - now apply StepCache_set_wellKeyed.
  - split; [constructor | intros k e []].
Qed.

Lemma cacheAfter_wellKeyed (capacity : Z) (ops : list cacheOp) :
  wellKeyed (cacheAfter capacity ops).
Proof. apply runOps_wellKeyed. split; [constructor | intros k e []]. Qed.

Lemma runOps_maxSize (ops : list cacheOp) :
  forall c, maxSize (runOps c ops) = maxSize c.
Proof.
  induction ops as [|op ops IH]; intros c; [reflexivity|].
  cbn [runOps fold_left]. fold (runOps (applyOp c op) ops). rewrite IH.
  destruct op; reflexivity.
Qed.

(** X13.  Reading after writing, in a cache reached from a new one by any
    sequence of [set] and [clear].  After [set(step)], [get] returns [step]
    for its index.  For another index it returns what it returned before,
    except that nothing is returned for the oldest key of the cache when the
    cache was full: that entry is evicted, also when the index of [step] was
    present already and no room was needed. *)
Theorem StepCache_get_after_set (capacity : Z) (ops : list cacheOp)
    (step : QuantumStep) (now k : Z) :
  let c := cacheAfter capacity ops in
  StepCache_get (StepCache_set c step now) k
  = if k =? index step then Some step
    else if (Map_size (cache c) >=? maxSize c)
            && match Map_firstKey (cache c) with
               | Some firstKey => firstKey =? k
               | None => false
               end
         then None
         else StepCache_get c k.
Proof.
  intros c. destruct (cacheAfter_wellKeyed capacity ops) as [Hnd _]. fold c in Hnd.
  unfold StepCache_get. rewrite StepCache_set_cache, Map_get_set.
  rewrite (Z.eqb_sym k (index step)).
  destruct (Z.eqb_spec (index step) k) as [_|Hne]; [reflexivity|].
  unfold evicted. destruct (Map_size (cache c) >=? maxSize c); [|reflexivity].
  destruct (cache c) as [|[k0 e0] m]; [reflexivity|].
  cbn [Map_firstKey Map_delete andb Map_get]. rewrite Z.eqb_refl.
  destruct (Z.eqb_spec k0 k) as [<-|_]; [|reflexivity].
  cbn [map fst] in Hnd. inversion Hnd as [|? ? Hnot _]; subst.
  apply Map_get_None in Hnot. now rewrite Hnot.
Qed.

Lemma StepCache_set_size (c : StepCache) (step : QuantumStep) (now : Z) :
  Map_size (cache c) <= Z.max 1 (maxSize c) ->
  Map_size (cache (StepCache_set c step now)) <= Z.max 1 (maxSize c).
Proof.
  intros H. rewrite StepCache_set_cache, Map_set_size.
  assert (He : Map_size (evicted c) + 1 <= Z.max 1 (maxSize c)).
  { unfold evicted. destruct (Z.geb_spec (Map_size (cache c)) (maxSize c)) as [Hge|Hlt].
    - destruct (cache c) as [|[k0 e0] m]; cbn [Map_firstKey Map_delete].
      + cbn. lia.
      + rewrite Z.eqb_refl. unfold Map_size in *. cbn [List.length] in H. lia.
    - lia. }
  destruct (Map_get (evicted c) (index step)); lia.
Qed.

Lemma runOps_size (ops : list cacheOp) :
  forall c,
    Map_size (cache c) <= Z.max 1 (maxSize c) ->
    Map_size (cache (runOps c ops)) <= Z.max 1 (maxSize c).
Proof.
  induction ops as [|op ops IH]; intros c Hc; [exact Hc|].
  cbn [runOps fold_left]. fold (runOps (applyOp c op) ops).
  replace (maxSize c) with (maxSize (applyOp c op)) by (destruct op; reflexivity).
  apply IH. destruct op as [step now|]; cbn [applyOp].
  - change (maxSize (StepCache_set c step now)) with (maxSize c).
    now apply StepCache_set_size.
  - cbn. lia.
Qed.

(** X14.  The size [getStats] reports never exceeds the capacity given to the
    constructor, for a capacity of at least 1; with a capacity of 0 or less
    the cache still holds one entry after a [set], never more.  The capacity
    reported is the one given to the constructor. *)
Theorem getStats_size_bounded (capacity : Z) (ops : list cacheOp) :
  let stats := getStats (cacheAfter capacity ops) in
  0 <= stats_size stats <= Z.max 1 capacity /\ stats_maxSize stats = capacity.
Proof.
  intros stats. subst stats. unfold getStats. cbn [stats_size stats_maxSize].
  unfold cacheAfter. rewrite runOps_maxSize. split; [|reflexivity].
  split; [unfold Map_size; lia|].
  apply (runOps_size ops (newStepCache capacity 1000)). cbn. lia.
Qed.

Lemma checkpoint_kept (step : QuantumStep) (ops : list cacheOp) :
  Forall (fun op => op <> OpClear) ops ->
  forall c,
    (exists s, Map_get (checkpoints c) (index step) = Some s /\ index s = index step) ->
    exists s, Map_get (checkpoints (runOps c ops)) (index step) = Some s
              /\ index s = index step.
Proof.
  induction 1 as [|op ops Hop _ IH]; intros c Hc; [exact Hc|].
  cbn [runOps fold_left]. apply IH.
  destruct op as [step' now|]; [|congruence]. cbn [applyOp].
  unfold StepCache_set. cbn [checkpoints].
  destruct (Z.rem (index step') 1000 =? 0); [|exact Hc].
  rewrite Map_get_set. destruct (Z.eqb_spec (index step') (index step)) as [He|_];
    [|exact Hc].
  now exists step'.
Qed.

(** X15.  A checkpoint outlives the cache entries.  Once a step whose index is
    a multiple of 1000 has been [set], and until the next [clear],
    [getNearestCheckpoint] returns a step of that index for every target index
    of the same thousand, whatever is [set] afterwards and whatever the
    capacity evicts. *)
Theorem getNearestCheckpoint_persists (c : StepCache) (step : QuantumStep) (now : Z)
    (later : list cacheOp) (targetIndex : Z) :
  Z.rem (index step) 1000 = 0 ->
  Forall (fun op => op <> OpClear) later ->
  index step <= targetIndex < index step + 1000 ->
  exists s,
    getNearestCheckpoint (runOps (StepCache_set c step now) later) targetIndex = Some s
    /\ index s = index step.
Proof.
  intros Hrem Hlater Hrange. unfold getNearestCheckpoint.
  assert (Hq : index step = 1000 * Z.quot (index step) 1000).
  { pose proof (Z.quot_rem' (index step) 1000) as H. lia. }
  assert (Hb : targetIndex / 1000 * 1000 = index step).
  { rewrite <- (Z.div_unique targetIndex 1000 (Z.quot (index step) 1000)
                  (targetIndex - index step)); lia. }
  rewrite Hb. apply checkpoint_kept; [exact Hlater|].
  exists step. split; [|reflexivity].
  unfold StepCache_set. cbn [checkpoints]. rewrite Hrem. cbn.
  rewrite Map_get_set, Z.eqb_refl. reflexivity.
Qed.

Lemma getNearestCheckpoint_persists_witness :
  exists s,
    getNearestCheckpoint
      (runOps (StepCache_set (newStepCache 1 1000) origin 0) [OpSet step1 1; OpSet step2 2])
      999
    = Some s
    /\ index s = index origin.
Proof.
  apply (getNearestCheckpoint_persists (newStepCache 1 1000) origin 0
           [OpSet step1 1; OpSet step2 2] 999).
  - reflexivity.
  - repeat constructor; discriminate.
  - cbn. lia.
Defined.

Lemma findByTimestamp_Some (entries : JSMap StepCacheEntry) (t : Z) (s : QuantumStep) :
  findByTimestamp entries t = Some s ->
  timestamp s = t /\ exists k e, In (k, e) entries /\ entry_step e = s.
Proof.
  induction entries as [|[k e] entries IH]; cbn [findByTimestamp]; [discriminate|].
  destruct (Z.eqb_spec (timestamp (entry_step e)) t) as [Ht|_].
  - intros [= <-]. split; [exact Ht|]. exists k, e. split; [now left | reflexivity].
  - intros H. destruct (IH H) as (Ht & k' & e' & Hin & He).
    split; [exact Ht|]. exists k', e'. split; [now right | exact He].
Qed.

Lemma findByTimestamp_None (entries : JSMap StepCacheEntry) (t : Z) :
  findByTimestamp entries t = None <->
  forall k e, In (k, e) entries -> timestamp (entry_step e) <> t.
Proof.
  induction entries as [|[k e] entries IH]; cbn [findByTimestamp].
  - split; [intros _ k e [] | reflexivity].
  - destruct (Z.eqb_spec (timestamp (entry_step e)) t) as [Ht|Hne].
    + split; [discriminate|]. intros H. exfalso. apply (H k e); [now left | exact Ht].
    + rewrite IH. split.
      * intros H k' e' [[= <- <-]|Hin]; [exact Hne | now apply (H k')].
      * intros H k' e' Hin. apply (H k'). now right.
Qed.

(** X16.  Lookup by timestamp agrees with lookup by index, in a cache reached
    from a new one.  The step [getByTimestamp] returns has the timestamp asked
    for and is the step [get] returns for its index; and [getByTimestamp]
    returns nothing exactly when no step [get] can return has that
    timestamp. *)
Theorem getByTimestamp_agrees_with_get (capacity : Z) (ops : list cacheOp) (t : Z) :
  let c := cacheAfter capacity ops in
  (forall s, StepCache_getByTimestamp c t = Some s ->
     timestamp s = t /\ StepCache_get c (index s) = Some s)
  /\ (StepCache_getByTimestamp c t = None <->
      forall k s, StepCache_get c k = Some s -> timestamp s <> t).
Proof.
  intros c. destruct (cacheAfter_wellKeyed capacity ops) as [Hnd Hk]. fold c in Hnd, Hk.
  unfold StepCache_getByTimestamp, StepCache_get. split.
  - intros s H. apply findByTimestamp_Some in H.
    destruct H as (Ht & k & e & Hin & He). split; [exact Ht|].
    rewrite <- He, (Hk k e Hin), (In_Map_get _ k e Hnd Hin). reflexivity.
  - rewrite findByTimestamp_None. split.
    + intros H k s Hget.
      destruct (Map_get (cache c) k) as [e|] eqn:He; [|discriminate].
      injection Hget as <-. apply (H k). now apply Map_get_In.
    + intros H k e Hin. apply (H k).
      now rewrite (In_Map_get _ k e Hnd Hin).
Qed.

(** ** The scorer and the matcher, continued *)

Lemma f64_le_trans (c a b : float) :
  PrimFloat.leb c a = true -> PrimFloat.leb a b = true -> PrimFloat.leb c b = true.
Proof. intros H1 H2. float_order. Qed.

Lemma f64_le_nan (c a : float) :
  PrimFloat.is_nan a = true -> PrimFloat.leb c a = false.
Proof.
  intros H. destruct (PrimFloat.leb c a) eqn:E; [|reflexivity].
  rewrite leb_keyOf in E. apply is_nan_Prim2SF in H. unfold keyOf in E.
  rewrite H in E. cbn in E. destruct (SFkey (Prim2SF c)); contradiction.
Qed.

(** X17.  The rating follows the order of the scores: a score that is at least
    another one is rated at least as high.  A NaN score fails every comparison
    and is rated Poor. *)
Theorem getMatchQuality_monotone :
  (forall a b : float,
     PrimFloat.leb a b = true ->
     qualityRank (getMatchQuality a) <= qualityRank (getMatchQuality b))
  /\ (forall a : float,
        PrimFloat.is_nan a = true -> rating (getMatchQuality a) = "Poor"%string).
Proof.
  split.
  - intros a b Hab. unfold getMatchQuality.
    pose proof (fun c H => f64_le_trans c a b H Hab) as Hup.
    destruct (PrimFloat.leb 0.95 a) eqn:Ha1;
      [rewrite (Hup _ Ha1); vm_compute; discriminate|].
    destruct (PrimFloat.leb 0.85 a) eqn:Ha2;
      [rewrite (Hup _ Ha2); destruct (PrimFloat.leb 0.95 b); vm_compute; discriminate|].
    destruct (PrimFloat.leb 0.7 a) eqn:Ha3;
      [rewrite (Hup _ Ha3); destruct (PrimFloat.leb 0.95 b), (PrimFloat.leb 0.85 b);
       vm_compute; discriminate|].
    destruct (PrimFloat.leb 0.5 a) eqn:Ha4;
      [rewrite (Hup _ Ha4);
       destruct (PrimFloat.leb 0.95 b), (PrimFloat.leb 0.85 b), (PrimFloat.leb 0.7 b);
       vm_compute; discriminate|].
    destruct (PrimFloat.leb 0.3 a) eqn:Ha5;
      [rewrite (Hup _ Ha5);
       destruct (PrimFloat.leb 0.95 b), (PrimFloat.leb 0.85 b), (PrimFloat.leb 0.7 b),
         (PrimFloat.leb 0.5 b);
       vm_compute; discriminate|].
    destruct (PrimFloat.leb 0.95 b), (PrimFloat.leb 0.85 b), (PrimFloat.leb 0.7 b),
      (PrimFloat.leb 0.5 b), (PrimFloat.leb 0.3 b); vm_compute; discriminate.
  - intros a Ha. unfold getMatchQuality.
    rewrite !(f64_le_nan _ a Ha). reflexivity.
Qed.

Section MatchResultProperties.
Context {num : Type} {N : Number num}.
Variable crypto : Crypto.
Variable maxArguments : nat.

Lemma extractIntervals_slice (steps : list QuantumStep) (from to : nat) :
  extractIntervals (N := N) (slice steps from to)
  = slice (extractIntervals steps) from to.
Proof. unfold extractIntervals, slice. now rewrite skipn_map, firstn_map. Qed.

(** X18.  The parts of a [MatchResult] fit together.  The matched steps are
    the window of the candidate steps that starts at the offset of the
    alignment and is as long as the user sequence, the quantum intervals are
    the intervals of that window, the similarity score is the score of that
    window (the one the search compared), and the statistics are those of the
    user and quantum intervals. *)
Theorem matchSequence_result_consistent (fuel : nat) (input : UserSequenceInput num)
    (r : MatchResult num) :
  matchSequence crypto maxArguments fuel input = Ok r ->
  exists steps,
    candidateSteps crypto fuel input = Ok steps /\
    let user := parseUserInput input in
    let o := SequenceAlignment.offset (alignment num r) in
    let window := slice (extractIntervals steps) o (o + List.length user) in
    userIntervals num r = user /\
    SequenceAlignment.length (alignment num r) = List.length user /\
    matchedSteps num r = slice steps o (o + List.length user) /\
    quantumIntervals num r = window /\
    similarityScore num r = calculateSimilarity user window defaultMaxInterval /\
    calculateStatistics maxArguments user window = Ok (statistics num r).
Proof.
  intros H. destruct (parseUserInput input) as [|u user'] eqn:Hu.
  { rewrite matchSequence_rejects_empty in H by exact Hu. discriminate. }
  rewrite matchSequence_unfold in H by (rewrite Hu; discriminate).
  rewrite Hu in H. cbv zeta in H.
  destruct (candidateSteps crypto fuel input) as [steps| |]; cbn [bind] in H;
    try discriminate.
  destruct (Nat.ltb _ _); [discriminate|].
  set (user := u :: user') in *.
  assert (Ha : SequenceAlignment.alignedSteps (findBestAlignment user steps None)
               = slice steps (SequenceAlignment.offset (findBestAlignment user steps None))
                   (SequenceAlignment.offset (findBestAlignment user steps None)
                    + List.length user)) by reflexivity.
  rewrite Ha, extractIntervals_slice in H.
  destruct (calculateStatistics maxArguments user _) as [st| |] eqn:Hst; cbn [bind] in H;
    try discriminate.
  injection H as <-. exists steps. split; [reflexivity|].
  cbn [alignment matchedSteps userIntervals quantumIntervals similarityScore statistics].
  repeat split. exact Hst.
Qed.

(** X19.  Timestamps are turned into the differences of neighbours: one
    interval fewer than there are timestamps, the interval at position [i]
    being [values[i + 1] - values[i]].  So fewer than two timestamps give no
    interval, and [matchSequence] rejects them with 'No intervals to match'
    whatever the host and the search range. *)
Theorem parseUserInput_timestamps (vals : list num) (range : option (Z * Z)) :
  let input := mkInput timestamps vals range in
  List.length (parseUserInput input) = (List.length vals - 1)%nat /\
  (forall i, (i + 1 < List.length vals)%nat ->
     nth i (parseUserInput input) NaN = num_sub (nth (S i) vals NaN) (nth i vals NaN)) /\
  ((List.length vals <= 1)%nat ->
   forall fuel, matchSequence crypto maxArguments fuel input = Throw NoIntervals).
Proof.
  intros input. subst input. unfold parseUserInput. cbn [type values].
  assert (Hlen : forall l : list num,
             List.length (differences l) = (List.length l - 1)%nat).
  { induction l as [|a [|b l] IH]; try reflexivity.
    change (differences (a :: b :: l)) with (num_sub b a :: differences (b :: l)).
    cbn [List.length] in *. rewrite IH. lia. }
  split; [apply Hlen|]. split.
  - revert vals. induction vals as [|a [|b l] IH]; intros i Hi; cbn [List.length] in Hi;
      try lia.
    change (differences (a :: b :: l)) with (num_sub b a :: differences (b :: l)).
    destruct i as [|i]; [reflexivity|].
    cbn [nth]. apply (IH i). cbn [List.length]. lia.
  - intros Hshort fuel. apply matchSequence_rejects_empty.
    unfold parseUserInput. cbn [type values].
    destruct vals as [|a [|b l]]; try reflexivity. cbn [List.length] in Hshort. lia.
Qed.

End MatchResultProperties.

Lemma matchSequence_result_consistent_witness :
  exists r steps,
    matchSequence deployedCrypto 100 5 exampleInput = Ok r /\
    candidateSteps deployedCrypto 5 exampleInput = Ok steps /\
    let user := parseUserInput exampleInput in
    let o := SequenceAlignment.offset (alignment float r) in
    let window := slice (extractIntervals steps) o (o + List.length user) in
    userIntervals float r = user /\
    SequenceAlignment.length (alignment float r) = List.length user /\
    matchedSteps float r = slice steps o (o + List.length user) /\
    quantumIntervals float r = window /\
    similarityScore float r = calculateSimilarity user window defaultMaxInterval /\
    calculateStatistics 100 user window = Ok (statistics float r).
Proof.
  assert (Hr : exists r, matchSequence deployedCrypto 100 5 exampleInput = Ok r)
    by (vm_compute; eexists; reflexivity).
  destruct Hr as [r Hr]. exists r.
  destruct (matchSequence_result_consistent deployedCrypto 100 5 exampleInput r Hr)
    as (steps & Hc & H).
  exists steps. split; [exact Hr|]. split; [exact Hc | exact H].
Defined.

(** ** Formatting a duration *)

Lemma duration_part (d k u : Z) :
  0 <= d -> 0 < k -> 0 < u ->
  Z.rem d (1000 * k) / (1000 * u) = (d / 1000) mod k / u.
Proof.
  intros Hd Hk Hu. rewrite Z.rem_mod_nonneg by lia.
  rewrite Z.rem_mul_r by lia. rewrite <- Z.div_div by lia.
  f_equal. rewrite Z.mul_comm, Z.div_add by lia.
  rewrite Z.div_small by (apply Z.mod_pos_bound; lia). lia.
Qed.

(** X20.  [formatDuration] shows whole seconds: the milliseconds of a
    duration that is a safe integer and not negative do not change the text,
    and a duration below one second reads "0s". *)
Theorem formatDuration_whole_seconds (durationMs : Z) :
  0 <= durationMs <= MAX_SAFE_INTEGER ->
  formatDuration durationMs = formatDuration (durationMs / 1000 * 1000) /\
  (durationMs < 1000 -> formatDuration durationMs = "0s"%string).
Proof.
  intros [Hd _].
  assert (Hq : 0 <= durationMs / 1000) by (apply Z.div_pos; lia).
  assert (Heq : formatDuration durationMs = formatDuration (durationMs / 1000 * 1000)).
  { unfold formatDuration.
    change (24 * 60 * 60 * 1000) with (1000 * 86400).
    change (60 * 60 * 1000) with (1000 * 3600).
    change (60 * 1000) with (1000 * 60).
    change (Z.rem durationMs (1000 * 60) / 1000)
      with (Z.rem durationMs (1000 * 60) / (1000 * 1)).
    change (Z.rem (durationMs / 1000 * 1000) (1000 * 60) / 1000)
      with (Z.rem (durationMs / 1000 * 1000) (1000 * 60) / (1000 * 1)).
    rewrite !duration_part by lia.
    rewrite <- !Z.div_div by lia.
    rewrite Z.div_mul by lia. reflexivity. }
  split; [exact Heq|].
  intros Hlt. rewrite Heq, Z.div_small by lia. reflexivity.
Qed.

Lemma formatDuration_whole_seconds_witness :
  formatDuration 310980999 = formatDuration (310980999 / 1000 * 1000) /\
  (310980999 < 1000 -> formatDuration 310980999 = "0s"%string).
Proof.
  apply (formatDuration_whole_seconds 310980999). vm_compute. split; discriminate.
Defined.
